(** * DESCIFRADOR: monoalphabetic substitution solver for Spanish text

    A shallow embedding of [main.py]: the key model ([permute_fix],
    [apply_mapping], [random_swap_key], [shake_key]), the seeder
    ([initial_key_from_freq]), the objective function ([score_text]) and
    the multi-restart annealing search ([decipher]).

    Conventions of the embedding.
    - A Python character is its Unicode code point, a number in [N]; a
      string is a list of code points.
    - A Python [dict] is an insertion-ordered association list with unique
      keys ([Dict]); [Counter] is such a dictionary of counts.
    - Python exceptions are the constructors of [exn]; code that can raise
      lives in the [result] monad, code that also draws random numbers in
      the monad [M], which threads the generator and a history of the
      scored candidates.
    - Python floats are idealised as exact rationals [Q]: every constant of
      the program is a decimal fraction, and rounding is not modelled.  The
      three divisions of the program are checked divisions ([py_div]).
    - The objective function is embedded a second time over IEEE 754
      double-precision numbers ([Binary64.score_text]), with the rounding
      of every operation: what is said of the value of a score to the last
      bit is said of that embedding. *)

From Stdlib Require Import ZArith NArith QArith Qminmax Qabs Lqa Lia String Ascii.
From Stdlib Require Import Sorted.
From Stdlib Require Import Floats.
From Stdlib Require Uint63.
From stdpp Require Import base decidable option list numbers gmap sorting.

(** The decimal constants of the program are read as the nearest doubles. *)
#[global] Set Warnings "-inexact-float".

(** ** Characters and the alphabet *)

(** Code points of an ASCII literal. *)
Definition str (s : string) : list N :=
  List.map N_of_ascii (list_ascii_of_string s).

(** U+00F1, LATIN SMALL LETTER N WITH TILDE. *)
Definition enye : N := 241%N.

Definition ALPH : list N :=
  str "abcdefghijklmn" ++ [enye] ++ str "opqrstuvwxyz".

Definition VOWELS : list N := str "aeiou".

Definition SPANISH_FREQ_ORDER : list N :=
  str "eaosrnidltucmpbgyvfqhxzj" ++ [enye] ++ str "kw".

Definition ch_e : N := 101%N.

(** ** Exceptions *)

Inductive exn : Set :=
| KeyError | IndexError | ValueError | ZeroDivisionError | TypeError
| OverflowError.

Inductive result (A : Type) : Type :=
| Ok (a : A)
| Raise (e : exn).
Arguments Ok {A} a.
Arguments Raise {A} e.

#[global] Instance result_ret : MRet result := λ A, Ok.
#[global] Instance result_bind : MBind result := λ A B f r,
  match r with Ok a => f a | Raise e => Raise e end.
#[global] Instance result_fmap : FMap result := λ A B f r,
  match r with Ok a => Ok (f a) | Raise e => Raise e end.

(** [for x in l: acc = f(acc, x)] where [f] may raise. *)
Fixpoint foldM {M : Type → Type} `{MBind M, MRet M} {A B : Type}
    (f : A → B → M A) (l : list B) (a : A) : M A :=
  match l with
  | [] => mret a
  | x :: l' => a' ← f a x; foldM f l' a'
  end.

(** [[f(x) for x in l]] where [f] may raise. *)
Fixpoint forM {A B : Type} (f : A → result B) (l : list A) : result (list B) :=
  match l with
  | [] => Ok []
  | x :: l' => y ← f x; ys ← forM f l'; Ok (y :: ys)
  end.

(** ** Dictionaries *)

Module Dict.
Section Dict.
Context {K V : Type} `{EqDecision K}.

(** [d.get(k)] *)
Fixpoint get (d : list (K * V)) (k : K) : option V :=
  match d with
  | [] => None
  | (k', v) :: d' => if decide (k = k') then Some v else get d' k
  end.

(** [d[k]] *)
Definition item (d : list (K * V)) (k : K) : result V :=
  match get d k with Some v => Ok v | None => Raise KeyError end.

(** [d[k] = v]: an existing key keeps its place, a new one goes last. *)
Fixpoint set (d : list (K * V)) (k : K) (v : V) : list (K * V) :=
  match d with
  | [] => [(k, v)]
  | (k', v') :: d' =>
      if decide (k = k') then (k, v) :: d' else (k', v') :: set d' k v
  end.

Definition keys (d : list (K * V)) : list K := d.*1.
Definition values (d : list (K * V)) : list V := d.*2.

(** A dict display [{k1: v1, k2: v2, ...}] or comprehension: the items
    are stored left to right, so a repeated key keeps its last value. *)
Definition of_items (items : list (K * V)) : list (K * V) :=
  fold_left (λ d kv, set d kv.1 kv.2) items [].
End Dict.
End Dict.

(** ** Utilities *)

(** [only_letters]: the letters of the Spanish alphabet, in order. *)
Definition only_letters (text : list N) : list N :=
  filter (λ c, c ∈ ALPH) text.

(** [Counter(xs)]: counts in order of first occurrence. *)
Definition Counter {A : Type} `{EqDecision A} (xs : list A) : list (A * nat) :=
  fold_left (λ d x, Dict.set d x (S (default 0%nat (Dict.get d x)))) xs [].

(** [Counter.get(w, 0)] *)
Definition counter_get {A : Type} `{EqDecision A} (d : list (A * nat)) (w : A) : nat :=
  default 0%nat (Dict.get d w).

(** [Counter.most_common()] is [sorted(items, key=count, reverse=True)], a
    stable sort: equal counts keep the order of first occurrence. *)
Fixpoint insert_desc {A : Type} (x : A * nat) (l : list (A * nat)) : list (A * nat) :=
  match l with
  | [] => [x]
  | y :: l' => if (x.2 <? y.2)%nat then y :: insert_desc x l' else x :: l
  end.

Definition most_common {A : Type} (d : list (A * nat)) : list (A * nat) :=
  foldr insert_desc [] d.

(** ** Key model *)

(** A key is a bijection of the alphabet: its domain is the alphabet and
    every letter is the image of exactly one key. *)
Definition is_key (k : list (N * N)) : Prop :=
  Dict.keys k ≡ₚ ALPH ∧ Dict.values k ≡ₚ ALPH.

(** First loop of [permute_fix]: keep a proposed image that is a letter
    and still free, mark the other letters [None]. *)
Definition pf_propose (mapping : list (N * N))
    (st : gset N * list (N * option N)) (c : N) : gset N * list (N * option N) :=
  let '(used, res) := st in
  match Dict.get mapping c with
  | Some p =>
      if decide (p ∈ ALPH ∧ p ∉ used)
      then ({[p]} ∪ used, Dict.set res c (Some p))
      else (used, Dict.set res c None)
  | None => (used, Dict.set res c None)
  end.

(** Second loop: a letter left [None] takes [leftovers.pop(0)]. *)
Definition pf_fill (st : list N * list (N * option N)) (c : N)
  : result (list N * list (N * option N)) :=
  let '(leftovers, res) := st in
  v ← Dict.item res c;
  match v with
  | Some _ => Ok (leftovers, res)
  | None =>
      match leftovers with
      | [] => Raise IndexError
      | x :: leftovers' => Ok (leftovers', Dict.set res c (Some x))
      end
  end.

(** The dictionary that is returned holds letters only; a [None] left in
    it would make the [join] of [apply_mapping] raise. *)
Definition pf_seal (res : list (N * option N)) : result (list (N * N)) :=
  forM (λ cv, match cv.2 with
              | Some p => Ok (cv.1, p)
              | None => Raise TypeError
              end) res.

Definition permute_fix (mapping : list (N * N)) : result (list (N * N)) :=
  let '(used, res) := fold_left (pf_propose mapping) ALPH (∅, []) in
  let leftovers := filter (λ x, x ∉ used) ALPH in
  '(_, res') ← foldM pf_fill ALPH (leftovers, res);
  pf_seal res'.

(** [apply_mapping]: letters go through the mapping, the rest is kept. *)
Definition apply_mapping (text : list N) (mapping : list (N * N)) : result (list N) :=
  forM (λ ch, if decide (ch ∈ ALPH) then Dict.item mapping ch else Ok ch) text.

(** The loop of [random_swap_key]: every key whose image is [a] gets [b],
    every key whose image is [b] gets [a]. *)
Definition swap_value (a b v : N) : N :=
  if decide (v = a) then b else if decide (v = b) then a else v.

Definition swap_images (m : list (N * N)) (a b : N) : list (N * N) :=
  prod_map id (swap_value a b) <$> m.

(** ** Seeder *)

(** [l.remove(x)]: drops the first occurrence, raises when there is none. *)
Fixpoint list_remove (x : N) (l : list N) : result (list N) :=
  match l with
  | [] => Raise ValueError
  | y :: l' => if decide (y = x) then Ok l' else (y ::.) <$> list_remove x l'
  end.

(** [l[i % len(l)]] *)
Definition item_mod (l : list N) (i : nat) : result N :=
  match length l with
  | O => Raise ZeroDivisionError
  | n => match l !! (i mod n)%nat with
         | Some x => Ok x
         | None => Raise IndexError
         end
  end.

Definition extend_order (cipher_order : list N) : list N :=
  fold_left (λ co c, if decide (c ∈ co) then co else co ++ [c]) ALPH cipher_order.

(** The target sequence: with [force_e] (and a cipher order that is not
    empty) ['e'] is taken out of the frequency order and put in front. *)
Definition target_order (force_e : bool) (cipher_order : list N) : result (list N) :=
  let plain_order := SPANISH_FREQ_ORDER in
  if force_e && bool_decide (cipher_order ≠ [])
  then
    plain_order ← (if decide (ch_e ∈ plain_order)
                   then list_remove ch_e plain_order else Ok plain_order);
    Ok (ch_e :: filter (λ x, x ≠ ch_e) plain_order)
  else Ok plain_order.

Definition initial_key_from_freq (ciphertext_letters : list N) (force_e : bool)
  : result (list (N * N)) :=
  let freq := Counter ciphertext_letters in
  let cipher_order := extend_order ((most_common freq).*1) in
  plain_order ← target_order force_e cipher_order;
  items ← forM (λ ic, p ← item_mod plain_order ic.1; Ok (ic.2, p))
               (imap pair cipher_order);
  let mapping := Dict.of_items items in
  permute_fix mapping.

(** ** Normalisation, letter counts and the printed key *)

(** [count_letters] *)
Definition count_letters (text : list N) : list (N * nat) :=
  Counter (filter (λ c, c ∈ ALPH) text).

(** [str.maketrans] of the accented vowels (and the u with diaeresis),
    lower case and upper case, to the plain vowels. *)
Definition accents : list (N * N) := Dict.of_items
  [ (225, 97); (233, 101); (237, 105); (243, 111); (250, 117);
    (193, 65); (201, 69); (205, 73); (211, 79); (218, 85);
    (252, 117); (220, 85) ]%N.

(** [text.translate(table)]: a character without an entry is kept. *)
Definition translate (table : list (N * N)) (text : list N) : list N :=
  (λ c, default c (Dict.get table c)) <$> text.

(** [str.lower] on a character of Latin-1: the capitals A-Z, U+00C0-U+00D6
    and U+00D8-U+00DE are 32 below their small letters. *)
Definition latin1_lower (c : N) : N :=
  if ((65 <=? c) && (c <=? 90) || (192 <=? c) && (c <=? 214)
      || (216 <=? c) && (c <=? 222))%N
  then (c + 32)%N else c.

(** [str.lower]: character by character on a string of Latin-1; on other
    strings it is the library's [unicode_lower]. *)
Definition py_lower (unicode_lower : list N → list N) (text : list N) : list N :=
  if forallb (λ c, c <? 256)%N text then latin1_lower <$> text
  else unicode_lower text.

Definition normalize (unicode_lower : list N → list N) (text : list N) : list N :=
  py_lower unicode_lower (translate accents text).

(** The lines [h -> c] that [main] prints for a key: for every letter [c]
    of the alphabet, in order, the cipher letters that decode to [c],
    sorted. *)
Definition holders (keymap : list (N * N)) (c : N) : list N :=
  (filter (λ kv, kv.2 = c) keymap).*1.

Definition key_listing (keymap : list (N * N)) : list (N * N) :=
  c ← ALPH; h ← merge_sort N.le (holders keymap c); [(h, c)].

(** One character through [normalize], for a string of Latin-1. *)
Definition normal_char (c : N) : N :=
  latin1_lower (default c (Dict.get accents c)).

(** The letters of Spanish text: A-Z, a-z, the n with tilde and the
    accented vowels of [accents], small and capital. *)
Definition SPANISH_LETTERS : list N :=
  str "ABCDEFGHIJKLMNOPQRSTUVWXYZ" ++ str "abcdefghijklmnopqrstuvwxyz"
  ++ [209; 241]%N ++ Dict.keys accents.

(** ** Scoring *)

Definition BIGRAM_SCORES : list (list N * Q) := Dict.of_items
  [ (str "de", 4.5); (str "en", 4.3); (str "es", 4.0); (str "la", 4.0);
    (str "el", 3.8); (str "que", 3.5); (str "qu", 3.2);
    (str "re", 3.0); (str "ra", 2.9); (str "os", 2.8); (str "ar", 2.8);
    (str "co", 2.7); (str "te", 2.7); (str "an", 2.6);
    (str "as", 2.6); (str "er", 2.5); (str "se", 2.5); (str "or", 2.4);
    (str "al", 2.4); (str "ci", 2.3); (str "to", 2.2);
    (str "nt", 2.2); (str "lo", 2.1); (str "no", 2.1); (str "pa", 2.0);
    (str "po", 1.9); (str "ma", 1.8); (str "is", 1.8);
    (str "ta", 1.8); (str "in", 1.7); (str "na", 1.7); (str "ro", 1.7);
    (str "mi", 1.6); (str "li", 1.5); (str "do", 1.5);
    (str "ue", 1.5); (str "me", 1.4); (str "pe", 1.4); (str "bi", 1.3);
    (str "ga", 1.2); (str "ya", 1.1); (str "ve", 1.1);
    (str "ho", 1.0); (str "va", 1.0); (str "mo", 1.0) ]%Q.

Definition TRIGRAM_SCORES : list (list N * Q) := Dict.of_items
  [ (str "que", 7.0); (str "ent", 5.5); (str "con", 5.0); (str "los", 4.8);
    (str "las", 4.6); (str "del", 4.6);
    (str "una", 4.5); (str "por", 4.4); (str "est", 4.2); (str "ela", 3.8);
    (str "ela", 3.8); (str "aci", 3.5);
    (str "ara", 3.5); (str "res", 3.4); (str "dos", 3.3); (str "par", 3.2);
    (str "pro", 3.2); (str "men", 3.1);
    (str "ion", 3.0); (str "ara", 3.0); (str "era", 2.9); (str "tra", 2.9);
    (str "que", 7.0) ]%Q.

(** U+00E1, U+00ED, U+00E9: the accented vowels of three lexicon words. *)
Definition COMMON_WORDS : list (list N) :=
  [ str "de"; str "la"; str "que"; str "el"; str "en"; str "y"; str "a";
    str "los"; str "se"; str "del"; str "las"; str "un"; str "por"; str "con";
    str "no"; str "una"; str "su"; str "para"; str "es"; str "al"; str "lo";
    str "como"; str "m" ++ [225%N] ++ str "s"; str "pero"; str "sus";
    str "le"; str "ya";
    str "o"; str "este"; str "s" ++ [237%N]; str "porque"; str "cuando";
    str "muy"; str "sin"; str "sobre"; str "tambi" ++ [233%N] ++ str "n";
    str "me"; str "hasta" ].

(** [str.isspace] for one character: the Unicode white space. *)
Definition py_isspace (c : N) : bool :=
  ((9 <=? c) && (c <=? 13) || (28 <=? c) && (c <=? 32)
   || (c =? 133) || (c =? 160) || (c =? 5760)
   || (8192 <=? c) && (c <=? 8202)
   || (c =? 8232) || (c =? 8233) || (c =? 8239) || (c =? 8287)
   || (c =? 12288))%N.

(** [text.split()]: the maximal runs of characters that are not white
    space; [cur] is the run being read, last character first. *)
Fixpoint split_from (cur : list N) (text : list N) : list (list N) :=
  match text with
  | [] => match cur with [] => [] | _ => [reverse cur] end
  | c :: rest =>
      if py_isspace c
      then match cur with
           | [] => split_from [] rest
           | _ => reverse cur :: split_from [] rest
           end
      else split_from (c :: cur) rest
  end.

Definition split (text : list N) : list (list N) := split_from [] text.

(** [l[i:j]] for [0 <= i <= j] *)
Definition slice {A : Type} (l : list A) (i j : nat) : list A :=
  take (j - i) (drop i l).

(** [a / b] *)
Definition py_div (a b : Q) : result Q :=
  if Qeq_bool b 0 then Raise ZeroDivisionError else Ok (a / b)%Q.

(** [max(a, b)]: the first argument unless the second is greater. *)
Definition Qlt_bool (a b : Q) : bool := negb (Qle_bool b a).
Definition py_max (a b : Q) : Q := if Qlt_bool a b then b else a.

Definition of_nat (n : nat) : Q := inject_Z (Z.of_nat n).

(** [-1e9] *)
Definition sentinel : Q := (-1000000000)%Q.
Definition unseen_bigram : Q := (-0.8)%Q.
Definition unseen_trigram : Q := (-0.5)%Q.

(** [score_text].  The letters number [n >= 1] where the loops run, so
    [range(n-1)] is [seq 0 (n-1)], and [range(n-2)], empty for [n = 1], is
    [seq 0 (n-2)] with the truncated subtraction of [nat]. *)
Definition score_text (plain : list N) : result Q :=
  let s := 0%Q in
  let letters := only_letters plain in
  let n := length letters in
  if decide (n = 0%nat) then Ok sentinel else
  let s := fold_left
             (λ s i, let bg := slice letters i (i + 2) in
                     s + default unseen_bigram (Dict.get BIGRAM_SCORES bg))%Q
             (seq 0 (n - 1)) s in
  let s := fold_left
             (λ s i, let tg := slice letters i (i + 3) in
                     s + default unseen_trigram (Dict.get TRIGRAM_SCORES tg))%Q
             (seq 0 (n - 2)) s in
  let words := split plain in
  let word_counter := Counter words in
  let s := fold_left
             (λ s w, let c := counter_get word_counter w in
                     if decide (c ≠ 0%nat) then s + 6.0 * of_nat c else s)%Q
             COMMON_WORDS s in
  let vowels := length (filter (λ ch, ch ∈ VOWELS) letters) in
  ratio ← py_div (of_nat vowels) (of_nat (Nat.max 1 n));
  Ok (s - 50.0 * (ratio - 0.45) ^ 2)%Q.

(** ** Search *)

(** What the run has scored, in order: the decode of the seed key, the
    start of every restart, every proposed neighbour with the outcome of
    the acceptance test.  Each entry also records the best score after it.
    The history is specification state: the program does not keep it, and
    nothing below reads it. *)
Inductive event : Type :=
| EvSeed (score : Q)
| EvRestart (score best : Q)
| EvProposal (score : Q) (accepted : bool) (best : Q).

Definition ev_score (e : event) : Q :=
  match e with EvSeed s | EvRestart s _ | EvProposal s _ _ => s end.

Definition ev_best (e : event) : Q :=
  match e with EvSeed s => s | EvRestart _ b | EvProposal _ _ b => b end.

(** The seed and the accepted neighbours. *)
Definition ev_tracked (e : event) : bool :=
  match e with
  | EvSeed _ => true
  | EvRestart _ _ => false
  | EvProposal _ accepted _ => accepted
  end.

Record candidate : Type := Candidate {
  c_key : list (N * N);
  c_plain : list N;
  c_score : Q
}.

Record sa_state : Type := SaState {
  current : candidate;
  best : candidate
}.

(** [1e-6] *)
Definition epsilon : Q := 0.000001%Q.

Definition T0 : Q := 2.0%Q.
Definition Tmin : Q := 0.01%Q.

(** [range(lo, hi)] *)
Definition range (lo hi : Z) : list Z :=
  (λ i, lo + Z.of_nat i)%Z <$> seq 0 (Z.to_nat (hi - lo)).

(** [T = max(Tmin, T0 * (1 - t/iters))] *)
Definition temperature (iters t : Z) : result Q :=
  r ← py_div (inject_Z t) (inject_Z iters);
  Ok (py_max Tmin (T0 * (1 - r)))%Q.

(** The interpreter: the state of the module-level generator of [random],
    the positions that [random.sample(vals, 2)] picks in a population of
    [n] elements, [random.random()], [math.exp] (which raises
    [OverflowError] on large arguments) and the order in which a [set] of
    characters is iterated. *)
Record interp : Type := Interp {
  Rng : Type;
  rng_seed : Z → Rng;
  rng_sample2 : Rng → nat → (nat * nat) * Rng;
  rng_random : Rng → Q * Rng;
  math_exp : Q → result Q;
  set_order : list N → list N
}.

(** What the library documents of them: a sample holds distinct positions
    of the population, [math.exp] is defined on the arguments that are not
    positive, a set holds every element once. *)
Record interp_ok (I : interp) : Prop := InterpOk {
  rng_sample2_spec : ∀ g n, (2 ≤ n)%nat →
    let ij := (rng_sample2 I g n).1 in
    (ij.1 < n)%nat ∧ (ij.2 < n)%nat ∧ ij.1 ≠ ij.2;
  math_exp_nonpos : ∀ x, (x <= 0)%Q → ∃ y, math_exp I x = Ok y;
  set_order_spec : ∀ l, set_order I l ≡ₚ remove_dups l
}.

Section Search.

Context (I : interp).

Record world : Type := World {
  w_rng : Rng I;
  w_history : list event
}.

Definition M (A : Type) : Type := world → result (A * world).

#[global] Instance M_ret : MRet M := λ A a w, Ok (a, w).
#[global] Instance M_bind : MBind M := λ A B f m w,
  match m w with Ok (a, w') => f a w' | Raise e => Raise e end.

Definition lift {A : Type} (r : result A) : M A := λ w,
  match r with Ok a => Ok (a, w) | Raise e => Raise e end.

Definition record (e : event) : M unit := λ w,
  Ok ((), World (w_rng w) (w_history w ++ [e])).

(** [random.seed(seed)] *)
Definition random_seed (seed : Z) : M unit := λ w,
  Ok ((), World (rng_seed I seed) (w_history w)).

(** [random.random()] *)
Definition random_random : M Q := λ w,
  let '(u, g) := rng_random I (w_rng w) in Ok (u, World g (w_history w)).

(** [a, b = random.sample(vals, 2)] *)
Definition random_sample2 (vals : list N) : M (N * N) := λ w,
  if decide (length vals < 2)%nat then Raise ValueError
  else
    let '((i, j), g) := rng_sample2 I (w_rng w) (length vals) in
    match vals !! i, vals !! j with
    | Some a, Some b => Ok ((a, b), World g (w_history w))
    | _, _ => Raise IndexError
    end.

Definition random_swap_key (mapping : list (N * N)) : M (list (N * N)) :=
  let m := mapping in
  let vals := set_order I (Dict.values m) in
  '(a, b) ← random_sample2 vals;
  mret (swap_images m a b).

Fixpoint shake_key (key : list (N * N)) (shakes : nat) : M (list (N * N)) :=
  match shakes with
  | O => mret key
  | S shakes' => m ← random_swap_key key; shake_key m shakes'
  end.

(** [delta >= 0 or random.random() < math.exp(delta / max(T, 1e-6))] *)
Definition accepts (delta T : Q) : M bool :=
  if Qle_bool 0 delta then mret true
  else
    u ← random_random;
    x ← lift (py_div delta (py_max T epsilon));
    y ← lift (math_exp I x);
    mret (Qlt_bool u y).

(** One iteration of the annealing loop. *)
Definition sa_step (cipher_norm : list N) (iters : Z) (st : sa_state) (t : Z)
  : M sa_state :=
  T ← lift (temperature iters t);
  new_key ← random_swap_key (c_key (current st));
  new_plain ← lift (apply_mapping cipher_norm new_key);
  new_score ← lift (score_text new_plain);
  let delta := (new_score - c_score (current st))%Q in
  ok ← accepts delta T;
  if ok : bool then
    let cur := Candidate new_key new_plain new_score in
    let bst := if Qlt_bool (c_score (best st)) (c_score cur)
               then cur else best st in
    _ ← record (EvProposal new_score true (c_score bst));
    mret (SaState cur bst)
  else
    _ ← record (EvProposal new_score false (c_score (best st)));
    mret st.

(** One restart: the body of [for r in range(restarts)]. *)
Definition restart (cipher_norm : list N) (iters : Z) (base_key : list (N * N))
    (bst : candidate) (r : Z) : M candidate :=
  current_key ← (if decide (r = 0%Z) then mret base_key
                 else shake_key base_key 50);
  current_plain ← lift (apply_mapping cipher_norm current_key);
  current_score ← lift (score_text current_plain);
  _ ← record (EvRestart current_score (c_score bst));
  st ← foldM (sa_step cipher_norm iters) (range 1 (iters + 1))
             (SaState (Candidate current_key current_plain current_score) bst);
  mret (best st).

Definition decipher (cipher_norm : list N) (restarts iters : Z)
    (seed : option Z) (force_e : bool) : M (list N * list (N * N) * Q) :=
  _ ← match seed with Some s => random_seed s | None => mret () end;
  let letters_only := only_letters cipher_norm in
  base_key ← lift (initial_key_from_freq letters_only force_e);
  let best_key := base_key in
  best_plain ← lift (apply_mapping cipher_norm best_key);
  best_score ← lift (score_text best_plain);
  _ ← record (EvSeed best_score);
  bst ← foldM (restart cipher_norm iters base_key) (range 0 restarts)
              (Candidate best_key best_plain best_score);
  mret (c_plain bst, c_key bst, c_score bst).

End Search.

(** ** A tape-driven interpreter

    The generator state is the list of the numbers still to be drawn (an
    exhausted tape yields zeros); [seeded] gives the tape that a seed
    installs and [order] the iteration order of sets. *)
Definition tape_next (g : list nat) : nat * list nat :=
  match g with
  | [] => (0%nat, [])
  | x :: g' => (x, g')
  end.

Definition tape_sample2 (g : list nat) (n : nat) : (nat * nat) * list nat :=
  let '(x, g1) := tape_next g in
  let '(y, g2) := tape_next g1 in
  let i := (x mod n)%nat in
  ((i, ((i + 1 + y mod (n - 1)) mod n)%nat), g2).

Definition tape_random (g : list nat) : Q * list nat :=
  let '(x, g') := tape_next g in
  ((of_nat (x mod 1000) / 1000)%Q, g').

Definition tape_interp (seeded : Z → list nat) (order : list N → list N) : interp :=
  Interp (list nat) seeded tape_sample2 tape_random (λ _, Ok 0%Q) order.

(** ** The score in closed form

    The four terms of the objective function as sums over the letter pairs,
    the letter triples, the lexicon and the vowel ratio. *)
Definition pairs {A : Type} (l : list A) : list (A * A) := zip l (tail l).

Definition triples {A : Type} (l : list A) : list (A * A * A) :=
  zip (zip l (tail l)) (tail (tail l)).

Definition bigram_weight (p : N * N) : Q :=
  default unseen_bigram (Dict.get BIGRAM_SCORES [p.1; p.2]).

Definition trigram_weight (t : N * N * N) : Q :=
  default unseen_trigram (Dict.get TRIGRAM_SCORES [t.1.1; t.1.2; t.2]).

Definition Qsum (l : list Q) : Q := foldr Qplus 0%Q l.

Definition occurrences {A : Type} `{EqDecision A} (w : A) (l : list A) : nat :=
  length (filter (λ x, x = w) l).

Definition vowel_ratio (letters : list N) : Q :=
  (of_nat (length (filter (λ ch, ch ∈ VOWELS) letters))
   / of_nat (length letters))%Q.

Definition score_sum (plain : list N) : Q :=
  let letters := only_letters plain in
  (Qsum (bigram_weight <$> pairs letters)
   + Qsum (trigram_weight <$> triples letters)
   + Qsum ((λ w, 6.0 * of_nat (occurrences w (split plain))) <$> COMMON_WORDS)
   - 50.0 * (vowel_ratio letters - 0.45) ^ 2)%Q.

(** ** The score in binary64

    [score_text] over IEEE 754 double-precision numbers, the floats of
    Python, with the rounding of every operation.  A constant is the double
    nearest to the decimal of the source.  [float(k)] of an [int] is exact
    for [k] below [2^53], and there [a / b] on two [int]s is the quotient of
    their floats; the division raises on the [int] divisor [0].  [x ** 2]
    is the [pow] of the C library at the exponent [2.0], a parameter [pow]
    of the embedding. *)
Module Binary64.

Definition BIGRAM_SCORES : list (list N * float) := Dict.of_items
  [ (str "de", 4.5); (str "en", 4.3); (str "es", 4.0); (str "la", 4.0);
    (str "el", 3.8); (str "que", 3.5); (str "qu", 3.2);
    (str "re", 3.0); (str "ra", 2.9); (str "os", 2.8); (str "ar", 2.8);
    (str "co", 2.7); (str "te", 2.7); (str "an", 2.6);
    (str "as", 2.6); (str "er", 2.5); (str "se", 2.5); (str "or", 2.4);
    (str "al", 2.4); (str "ci", 2.3); (str "to", 2.2);
    (str "nt", 2.2); (str "lo", 2.1); (str "no", 2.1); (str "pa", 2.0);
    (str "po", 1.9); (str "ma", 1.8); (str "is", 1.8);
    (str "ta", 1.8); (str "in", 1.7); (str "na", 1.7); (str "ro", 1.7);
    (str "mi", 1.6); (str "li", 1.5); (str "do", 1.5);
    (str "ue", 1.5); (str "me", 1.4); (str "pe", 1.4); (str "bi", 1.3);
    (str "ga", 1.2); (str "ya", 1.1); (str "ve", 1.1);
    (str "ho", 1.0); (str "va", 1.0); (str "mo", 1.0) ]%float.

Definition TRIGRAM_SCORES : list (list N * float) := Dict.of_items
  [ (str "que", 7.0); (str "ent", 5.5); (str "con", 5.0); (str "los", 4.8);
    (str "las", 4.6); (str "del", 4.6);
    (str "una", 4.5); (str "por", 4.4); (str "est", 4.2); (str "ela", 3.8);
    (str "ela", 3.8); (str "aci", 3.5);
    (str "ara", 3.5); (str "res", 3.4); (str "dos", 3.3); (str "par", 3.2);
    (str "pro", 3.2); (str "men", 3.1);
    (str "ion", 3.0); (str "ara", 3.0); (str "era", 2.9); (str "tra", 2.9);
    (str "que", 7.0) ]%float.

(** [float(n)] *)
Definition of_nat (n : nat) : float :=
  PrimFloat.of_uint63 (Uint63.of_Z (Z.of_nat n)).

(** [a / b] on two [int]s *)
Definition int_div (a b : nat) : result float :=
  if decide (b = 0%nat) then Raise ZeroDivisionError
  else Ok (of_nat a / of_nat b)%float.

(** [-1e9] *)
Definition sentinel : float := (-1000000000)%float.
Definition unseen_bigram : float := (-0.8)%float.
Definition unseen_trigram : float := (-0.5)%float.

Definition score_text (pow : float → float → float) (plain : list N)
    : result float :=
  let s := 0%float in
  let letters := only_letters plain in
  let n := length letters in
  if decide (n = 0%nat) then Ok sentinel else
  let s := fold_left
             (λ s i, let bg := slice letters i (i + 2) in
                     s + default unseen_bigram (Dict.get BIGRAM_SCORES bg))%float
             (seq 0 (n - 1)) s in
  let s := fold_left
             (λ s i, let tg := slice letters i (i + 3) in
                     s + default unseen_trigram (Dict.get TRIGRAM_SCORES tg))%float
             (seq 0 (n - 2)) s in
  let words := split plain in
  let word_counter := Counter words in
  let s := fold_left
             (λ s w, let c := counter_get word_counter w in
                     if decide (c ≠ 0%nat) then s + 6.0 * of_nat c else s)%float
             COMMON_WORDS s in
  let vowels := length (filter (λ ch, ch ∈ VOWELS) letters) in
  ratio ← int_div vowels (Nat.max 1 n);
  Ok (s - 50.0 * pow (ratio - 0.45) 2)%float.

(** The terms of the score, and their accumulation: the terms are added to
    the running total one after the other, each addition rounded. *)
Definition bigram_weight (p : N * N) : float :=
  default unseen_bigram (Dict.get BIGRAM_SCORES [p.1; p.2]).

Definition trigram_weight (t : N * N * N) : float :=
  default unseen_trigram (Dict.get TRIGRAM_SCORES [t.1.1; t.1.2; t.2]).

Definition accumulate (terms : list float) (s : float) : float :=
  fold_left PrimFloat.add terms s.

Definition vowel_ratio (letters : list N) : float :=
  (of_nat (length (filter (λ ch, ch ∈ VOWELS) letters))
   / of_nat (length letters))%float.

(** The bigram weights of the letter pairs in the order of the text, then
    the trigram weights of the letter triples, then [6.0] times its count
    for every lexicon word that occurs among the tokens, in the order of
    the lexicon, and last the vowel regulariser. *)
Definition score_accumulated (pow : float → float → float) (plain : list N)
    : float :=
  let letters := only_letters plain in
  let tokens := split plain in
  let s := accumulate (bigram_weight <$> pairs letters) 0%float in
  let s := accumulate (trigram_weight <$> triples letters) s in
  let s := accumulate
             ((λ w, 6.0 * of_nat (occurrences w tokens))%float
                <$> filter (λ w, occurrences w tokens ≠ 0%nat) COMMON_WORDS) s in
  (s - 50.0 * pow (vowel_ratio letters - 0.45) 2)%float.

(** A [pow] that rounds the exact square. *)
Definition square : float → float → float := λ x _, (x * x)%float.

(** The rational that a finite double is. *)
Definition to_Q (f : float) : option Q :=
  match Prim2SF f with
  | S754_zero _ => Some 0%Q
  | S754_finite s m e =>
      let z := if s then Z.neg m else Z.pos m in
      Some (if (0 <=? e)%Z then inject_Z (z * 2 ^ e)
            else (z # Z.to_pos (2 ^ (- e))))%Q
  | _ => None
  end.

End Binary64.

(** ** Runs of the search

    [runs m w P]: from the world [w] the computation [m] returns without
    raising, with a result and a final world that satisfy [P]. *)
Definition runs {I : interp} {A : Type} (m : M I A) (w : world I)
    (P : A → world I → Prop) : Prop :=
  ∃ a w', m w = Ok (a, w') ∧ P a w'.

(** A candidate is consistent: its key is a bijection of the alphabet, its
    text is the decode of the ciphertext under the key and its score is
    the score of that text. *)
Definition valid (cipher_norm : list N) (c : candidate) : Prop :=
  is_key (c_key c) ∧
  apply_mapping cipher_norm (c_key c) = Ok (c_plain c) ∧
  score_text (c_plain c) = Ok (c_score c).

Definition nondecreasing (l : list Q) : Prop :=
  ∀ i j x y, (i ≤ j)%nat → l !! i = Some x → l !! j = Some y → (x <= y)%Q.

(** How the best candidate relates to the seed candidate and to the
    history: it is the seed or scores strictly more; no tracked entry (the
    seed, an accepted neighbour) scores more than it and one scores as
    much; the recorded best scores never decrease and end with its score. *)
Definition tracks (seed bst : candidate) (h : list event) : Prop :=
  (bst = seed ∨ (c_score seed < c_score bst)%Q) ∧
  Forall (λ e, ev_tracked e = true → (ev_score e <= c_score bst)%Q) h ∧
  Exists (λ e, ev_tracked e = true ∧ (ev_score e == c_score bst)%Q) h ∧
  nondecreasing (ev_best <$> h) ∧
  last (ev_best <$> h) = Some (c_score bst).

(** The identity key, and two instances of the tape-driven interpreter:
    sets iterated in order of insertion, and in the reverse order. *)
Definition identity_key : list (N * N) := zip ALPH ALPH.

Definition tape_forward (seeded : Z → list nat) : interp :=
  tape_interp seeded remove_dups.

Definition tape_backward (seeded : Z → list nat) : interp :=
  tape_interp seeded (λ l, reverse (remove_dups l)).


(** A seeding that installs the same short tape for every seed. *)
Definition fixed_tape : Z → list nat := λ _, [0; 6]%nat.

(** ** Invariants of the loops *)

(** First loop of [permute_fix]: the images already given out are those
    recorded in [used], once each, and they are letters. *)
Definition pf_inv (st : gset N * list (N * option N)) : Prop :=
  NoDup (omap id (Dict.values st.2)) ∧
  (∀ p, p ∈ st.1 ↔ p ∈ omap id (Dict.values st.2)) ∧
  (∀ p, p ∈ st.1 → p ∈ ALPH).

(** The letters that the first loop left [None]. *)
Definition nones (d : list (N * option N)) : nat :=
  length (filter (λ v, v = None) (Dict.values d)).

(** The annealing loop and the loop over the restarts. *)
Definition search_inv (I : interp) (cipher_norm : list N) (seed : candidate)
    (st : sa_state) (w : world I) : Prop :=
  valid cipher_norm (current st) ∧ valid cipher_norm (best st) ∧
  tracks seed (best st) (w_history I w).

Definition best_inv (I : interp) (cipher_norm : list N) (seed : candidate)
    (bst : candidate) (w : world I) : Prop :=
  valid cipher_norm bst ∧ tracks seed bst (w_history I w).

(** ** A long text *)



(** A closed decidable proposition, by evaluation. *)
Ltac by_compute := apply (bool_decide_unpack _); vm_compute; exact Logic.I.

(** * Properties *)

(** ** Alphabet and dictionaries *)

#[global] Arguments ALPH : simpl never.
#[global] Arguments SPANISH_FREQ_ORDER : simpl never.
#[global] Arguments BIGRAM_SCORES : simpl never.
#[global] Arguments TRIGRAM_SCORES : simpl never.
#[global] Arguments COMMON_WORDS : simpl never.

Lemma ALPH_NoDup : NoDup ALPH.
Proof. by_compute. Qed.

Lemma ALPH_length : length ALPH = 27%nat.
Proof. reflexivity. Qed.

Section DictFacts.
Context {K V : Type} `{EqDecision K}.
Implicit Types (d : list (K * V)) (k : K) (v : V).

Lemma get_None d k : Dict.get d k = None ↔ k ∉ Dict.keys d.
Proof.
  unfold Dict.keys. induction d as [|[k' v'] d IH]; simpl.
  - split; [intros _; apply not_elem_of_nil | done].
  - case_decide as Hk; subst.
    + split; [done | intros Hn; exfalso; apply Hn; left].
    + rewrite IH, not_elem_of_cons. tauto.
Qed.

Lemma get_is_Some d k : is_Some (Dict.get d k) ↔ k ∈ Dict.keys d.
Proof.
  rewrite <- not_eq_None_Some, get_None.
  destruct (decide (k ∈ Dict.keys d)); naive_solver.
Qed.

Lemma get_Some_elem d k v : Dict.get d k = Some v → (k, v) ∈ d.
Proof.
  induction d as [|[k' v'] d IH]; simpl; [done |].
  case_decide; subst.
  - intros [= ->]. left.
  - intros. right. auto.
Qed.

Lemma elem_get_Some d k v :
  NoDup (Dict.keys d) → (k, v) ∈ d → Dict.get d k = Some v.
Proof.
  unfold Dict.keys. induction d as [|[k' v'] d IH]; simpl.
  - intros _ ?%elem_of_nil. done.
  - intros [Hk' Hd]%NoDup_cons [[= -> ->] | Hin]%elem_of_cons.
    + by rewrite decide_True.
    + rewrite decide_False; [auto |].
      intros ->. apply Hk'. apply list_elem_of_fmap. by exists (k', v).
Qed.

Lemma set_fresh d k v : k ∉ Dict.keys d → Dict.set d k v = d ++ [(k, v)].
Proof.
  unfold Dict.keys. induction d as [|[k' v'] d IH]; simpl; [done |].
  intros [? ?]%not_elem_of_cons. rewrite decide_False by done.
  by rewrite IH.
Qed.

Lemma set_middle d1 d2 k v v' :
  k ∉ Dict.keys d1 →
  Dict.set (d1 ++ (k, v) :: d2) k v' = d1 ++ (k, v') :: d2.
Proof.
  unfold Dict.keys. induction d1 as [|[k1 v1] d1 IH]; simpl.
  - intros _. by rewrite decide_True.
  - intros [? ?]%not_elem_of_cons. rewrite decide_False by done.
    by rewrite IH.
Qed.

Lemma get_middle d1 d2 k v :
  k ∉ Dict.keys d1 → Dict.get (d1 ++ (k, v) :: d2) k = Some v.
Proof.
  unfold Dict.keys. induction d1 as [|[k1 v1] d1 IH]; simpl.
  - intros _. by rewrite decide_True.
  - intros [? ?]%not_elem_of_cons. rewrite decide_False by done. auto.
Qed.
End DictFacts.

(** ** The result monad *)

Lemma forM_Ok {A B : Type} (f : A → result B) (l : list A) (k : list B) :
  forM f l = Ok k ↔ Forall2 (λ x y, f x = Ok y) l k.
Proof.
  revert k. induction l as [|x l IH]; intros k; simpl.
  - split; [intros [= <-]; constructor | by intros ->%Forall2_nil_inv_l].
  - split.
    + destruct (f x) as [y|] eqn:Hx; simpl; [|done].
      destruct (forM f l) as [ys|] eqn:Hl; simpl; [|done].
      intros [= <-]. constructor; [done | by apply IH].
    + intros (y & ys & Hy & Hys & ->)%Forall2_cons_inv_l.
      rewrite Hy. simpl. apply IH in Hys. rewrite Hys. done.
Qed.

Lemma forM_total {A B : Type} (f : A → result B) (l : list A) :
  Forall (λ x, ∃ y, f x = Ok y) l → ∃ k, forM f l = Ok k.
Proof.
  induction 1 as [|x l [y Hy] _ [k Hk]]; simpl; [by eexists |].
  rewrite Hy. simpl. rewrite Hk. by eexists.
Qed.

(** ** Applying a key *)

Lemma is_key_NoDup_keys k : is_key k → NoDup (Dict.keys k).
Proof. intros [Hk _]. rewrite Hk. apply ALPH_NoDup. Qed.

Lemma is_key_NoDup_values k : is_key k → NoDup (Dict.values k).
Proof. intros [_ Hv]. rewrite Hv. apply ALPH_NoDup. Qed.

Lemma is_key_item k ch : is_key k → ch ∈ ALPH → ∃ p, Dict.get k ch = Some p.
Proof.
  intros [Hk _] Hch. apply (get_is_Some (V:=N)). by rewrite Hk.
Qed.

Lemma is_key_image k ch p : is_key k → Dict.get k ch = Some p → p ∈ ALPH.
Proof.
  intros [_ Hv] Hg%get_Some_elem. rewrite <- Hv.
  apply list_elem_of_fmap. by exists (ch, p).
Qed.

Lemma apply_mapping_positions_aux (t : list N) (k : list (N * N)) :
  is_key k →
  ∃ out, apply_mapping t k = Ok out ∧ length out = length t ∧
    ∀ i ch, t !! i = Some ch →
      (ch ∉ ALPH → out !! i = Some ch) ∧
      (ch ∈ ALPH → ∃ p, Dict.get k ch = Some p ∧ out !! i = Some p).
Proof.
  intros Hk. unfold apply_mapping.
  destruct (forM_total
    (λ ch, if decide (ch ∈ ALPH) then Dict.item k ch else Ok ch) t) as [out Hout].
  { apply Forall_forall. intros ch _. case_decide as Hch; [|by eexists].
    destruct (is_key_item k ch Hk Hch) as [p Hp].
    exists p. unfold Dict.item. by rewrite Hp. }
  exists out. split; [done |].
  apply forM_Ok in Hout. split; [symmetry; by eapply Forall2_length |].
  intros i ch Hi.
  destruct (Forall2_lookup_l _ _ _ _ _ Hout Hi) as (y & Hy & Hf).
  split; intros Hch.
  - rewrite decide_False in Hf by done. by injection Hf as ->.
  - rewrite decide_True in Hf by done. unfold Dict.item in Hf.
    destruct (Dict.get k ch) as [p|]; [|done]. injection Hf as ->. eauto.
Qed.

(** C2. For a key [k] that is a bijection of the alphabet and any text [t],
    [apply_mapping t k] returns a text of the length of [t]; a position of
    [t] that holds a character outside the alphabet holds the same
    character in the output, and a position that holds a letter holds the
    image of that letter under [k]. *)
Theorem apply_mapping_positions (t : list N) (k : list (N * N)) :
  is_key k →
  ∃ out, apply_mapping t k = Ok out ∧ length out = length t ∧
    ∀ i ch, t !! i = Some ch →
      (ch ∉ ALPH → out !! i = Some ch) ∧
      (ch ∈ ALPH → ∃ p, Dict.get k ch = Some p ∧ out !! i = Some p).
Proof. apply apply_mapping_positions_aux. Qed.

(** ** Swapping two images *)

Lemma swap_value_involutive a b v : swap_value a b (swap_value a b v) = v.
Proof. unfold swap_value. repeat case_decide; congruence. Qed.

Lemma swap_images_involutive m a b :
  swap_images (swap_images m a b) a b = m.
Proof.
  unfold swap_images. rewrite <- list_fmap_compose.
  rewrite <- (list_fmap_id m) at 2. apply list_fmap_ext.
  intros _ [k v] _. simpl. f_equal. apply swap_value_involutive.
Qed.

Lemma swap_images_keys m a b : Dict.keys (swap_images m a b) = Dict.keys m.
Proof.
  unfold Dict.keys, swap_images. rewrite <- list_fmap_compose.
  apply list_fmap_ext. by intros _ [k v] _.
Qed.

Lemma swap_images_values m a b :
  Dict.values (swap_images m a b) = swap_value a b <$> Dict.values m.
Proof.
  unfold Dict.values, swap_images. rewrite <- !list_fmap_compose.
  apply list_fmap_ext. by intros _ [k v] _.
Qed.

Lemma swap_value_Permutation a b (l : list N) :
  NoDup l → a ∈ l → b ∈ l → swap_value a b <$> l ≡ₚ l.
Proof.
  intros Hl Ha Hb. apply NoDup_Permutation; [|done|].
  - apply NoDup_fmap_2; [|done].
    intros x y Hxy. rewrite <- (swap_value_involutive a b x), Hxy.
    apply swap_value_involutive.
  - intros x. rewrite list_elem_of_fmap. split.
    + intros (y & -> & Hy). unfold swap_value. by repeat case_decide.
    + intros Hx. exists (swap_value a b x).
      split; [by rewrite swap_value_involutive |].
      unfold swap_value. by repeat case_decide.
Qed.

Lemma swap_images_is_key k a b :
  is_key k → a ∈ Dict.values k → b ∈ Dict.values k → is_key (swap_images k a b).
Proof.
  intros Hk Ha Hb. split.
  - rewrite swap_images_keys. apply Hk.
  - rewrite swap_images_values, swap_value_Permutation; [apply Hk | | done..].
    by apply is_key_NoDup_values.
Qed.

(** C4. Swapping the images [a] and [b] twice in a key gives the key back:
    the swap of two distinct letters is an involution on the keys that are
    bijections of the alphabet. *)
Theorem swap_images_twice (k : list (N * N)) (a b : N) :
  is_key k → a ∈ ALPH → b ∈ ALPH → a ≠ b →
  swap_images (swap_images k a b) a b = k.
Proof. intros _ _ _ _. apply swap_images_involutive. Qed.

(** ** Repairing a proposed mapping *)

Section PermuteFix.
Variable mapping : list (N * N).

Lemma pf_propose_step st c :
  c ∉ Dict.keys st.2 → pf_inv st →
  Dict.keys (pf_propose mapping st c).2 = Dict.keys st.2 ++ [c] ∧
  pf_inv (pf_propose mapping st c).
Proof.
  destruct st as [used res]. simpl. intros Hc (Hnd & Hu & Ha).
  assert (Hnone : Dict.keys (Dict.set res c None) = Dict.keys res ++ [c]
                  ∧ pf_inv (used, Dict.set res c None)).
  { rewrite set_fresh by done. unfold pf_inv, Dict.keys, Dict.values. simpl.
    rewrite !fmap_app, omap_app. simpl. rewrite app_nil_r. done. }
  destruct (Dict.get mapping c) as [p|]; [|done].
  case_decide as Hp; [|done]. destruct Hp as [HpA Hpu].
  rewrite set_fresh by done. unfold pf_inv, Dict.keys, Dict.values. simpl.
  rewrite !fmap_app, omap_app. simpl. split; [done |].
  split; [|split].
  - apply NoDup_app. split; [done |]. split; [|apply NoDup_singleton].
    intros x Hx ->%list_elem_of_singleton. apply Hpu. by apply Hu.
  - intros x. rewrite elem_of_union, elem_of_singleton, elem_of_app,
      list_elem_of_singleton, Hu. tauto.
  - intros x [->%elem_of_singleton | Hx]%elem_of_union; auto.
Qed.

Lemma pf_propose_fold l st :
  NoDup (Dict.keys st.2 ++ l) → pf_inv st →
  Dict.keys (fold_left (pf_propose mapping) l st).2 = Dict.keys st.2 ++ l ∧
  pf_inv (fold_left (pf_propose mapping) l st).
Proof.
  revert st. induction l as [|c l IH]; intros st Hnd Hinv; simpl.
  - by rewrite app_nil_r.
  - destruct (pf_propose_step st c) as [Hk Hi]; [|done|].
    { apply NoDup_app in Hnd as (_ & Hd & _). intros Hc.
      apply (Hd c Hc). left. }
    destruct (IH (pf_propose mapping st c)) as [Hk' Hi']; [|done|].
    { rewrite Hk, <- app_assoc. done. }
    split; [|done]. rewrite Hk', Hk, <- app_assoc. done.
Qed.
End PermuteFix.

Lemma pf_fill_Some lo d1 d2 c p :
  c ∉ Dict.keys d1 →
  pf_fill (lo, d1 ++ (c, Some p) :: d2) c = Ok (lo, d1 ++ (c, Some p) :: d2).
Proof. intros Hc. unfold pf_fill, Dict.item. by rewrite get_middle. Qed.

Lemma pf_fill_None x lo d1 d2 c :
  c ∉ Dict.keys d1 →
  pf_fill (x :: lo, d1 ++ (c, None) :: d2) c = Ok (lo, d1 ++ (c, Some x) :: d2).
Proof.
  intros Hc. unfold pf_fill, Dict.item. rewrite get_middle by done. cbn.
  by rewrite set_middle.
Qed.

Lemma nones_cons_Some c p d : nones ((c, Some p) :: d) = nones d.
Proof. reflexivity. Qed.

Lemma nones_cons_None c d : nones ((c, None) :: d) = S (nones d).
Proof. reflexivity. Qed.

Lemma pf_fill_fold l : ∀ d1 d2 lo,
  Dict.keys d2 = l → NoDup (Dict.keys d1 ++ l) → (nones d2 ≤ length lo)%nat →
  ∃ d2', foldM pf_fill l (lo, d1 ++ d2) = Ok (drop (nones d2) lo, d1 ++ d2') ∧
    Dict.keys d2' = l ∧
    Forall is_Some (Dict.values d2') ∧
    omap id (Dict.values d2') ≡ₚ omap id (Dict.values d2) ++ take (nones d2) lo.
Proof.
  induction l as [|c l IH]; intros d1 d2 lo Hk Hnd Hlen.
  - destruct d2; [|done]. exists []. simpl. rewrite drop_0. done.
  - destruct d2 as [|[c' v] d2]; [done |]. injection Hk as -> Hk.
    assert (Hc : c ∉ Dict.keys d1).
    { apply NoDup_app in Hnd as (_ & Hd & _). intros Hc.
      apply (Hd c Hc). left. }
    assert (Hnd' : ∀ w, NoDup (Dict.keys (d1 ++ [(c, w)]) ++ l)).
    { intros w. unfold Dict.keys in *. rewrite fmap_app, <- app_assoc. done. }
    cbn [foldM]. destruct v as [p|].
    + rewrite pf_fill_Some by done. cbn [mbind result_bind].
      rewrite nones_cons_Some in *.
      destruct (IH (d1 ++ [(c, Some p)]) d2 lo Hk (Hnd' _) Hlen)
        as (d2' & Hf & Hk' & Hs & HP).
      exists ((c, Some p) :: d2'). rewrite <- !app_assoc in Hf. cbn in Hf.
      split; [done |]. split; [unfold Dict.keys in *; cbn; by f_equal |].
      split; [unfold Dict.values in *; cbn; by constructor |].
      unfold Dict.values in *. cbn. by constructor.
    + rewrite nones_cons_None in *.
      destruct lo as [|x lo]; [simpl in Hlen; lia |].
      rewrite pf_fill_None by done. cbn [mbind result_bind].
      destruct (IH (d1 ++ [(c, Some x)]) d2 lo Hk (Hnd' _))
        as (d2' & Hf & Hk' & Hs & HP).
      { simpl in Hlen. lia. }
      exists ((c, Some x) :: d2'). rewrite <- !app_assoc in Hf. cbn in Hf.
      split; [done |]. split; [unfold Dict.keys in *; cbn; by f_equal |].
      split; [unfold Dict.values in *; cbn; by constructor |].
      unfold Dict.values in *. cbn. rewrite HP. apply Permutation_middle.
Qed.

Lemma pf_seal_Ok (d : list (N * option N)) :
  Forall is_Some (Dict.values d) →
  ∃ k, pf_seal d = Ok k ∧ Dict.keys k = Dict.keys d ∧
       Dict.values k = omap id (Dict.values d).
Proof.
  unfold pf_seal, Dict.keys, Dict.values.
  induction d as [|[c v] d IH]; cbn; [by exists [] |].
  intros [[p ->] Hd]%Forall_cons. destruct (IH Hd) as (k & -> & Hk & Hv).
  exists ((c, p) :: k). cbn. by rewrite Hk, Hv.
Qed.

Lemma length_omap_nones (vs : list (option N)) :
  length vs = (length (omap id vs) + length (filter (λ v, v = None) vs))%nat.
Proof.
  induction vs as [|[p|] vs IH]; [done | |].
  - rewrite filter_cons_False by done.
    change (omap id (Some p :: vs)) with (p :: omap id vs).
    rewrite !length_cons. lia.
  - rewrite filter_cons_True by done.
    change (omap id (None :: vs)) with (omap id vs).
    rewrite !length_cons. lia.
Qed.

Lemma permute_fix_is_key (mapping : list (N * N)) :
  ∃ k, permute_fix mapping = Ok k ∧ Dict.keys k = ALPH ∧ is_key k.
Proof.
  unfold permute_fix.
  destruct (pf_propose_fold mapping ALPH (∅, [])) as [Hk (Hnd & Hu & Ha)].
  { apply ALPH_NoDup. }
  { split; [constructor |]. split; [|set_solver]. intros p. cbn. set_solver. }
  destruct (fold_left (pf_propose mapping) ALPH (∅, [])) as [used res].
  unfold Dict.values in *. cbn in Hk, Hnd, Hu, Ha.
  set (leftovers := filter (λ x, x ∉ used) ALPH).
  set (U := omap id res.*2) in *.
  assert (HU : filter (λ x, x ∈ used) ALPH ≡ₚ U).
  { apply NoDup_Permutation; [apply NoDup_filter, ALPH_NoDup | done |].
    intros x. rewrite list_elem_of_filter, <- Hu. split; [tauto | auto]. }
  assert (Hall : U ++ leftovers ≡ₚ ALPH).
  { rewrite <- HU. apply filter_app_complement. }
  assert (Hcount : nones res = length leftovers).
  { pose proof (length_omap_nones res.*2) as Hlen.
    fold U in Hlen. unfold nones, Dict.values.
    apply Permutation_length in Hall. rewrite length_app in Hall.
    assert (length res.*2 = length ALPH) as Hl.
    { rewrite length_fmap, <- Hk.
      unfold Dict.keys. by rewrite length_fmap. }
    lia. }
  destruct (pf_fill_fold ALPH [] res leftovers) as (d & Hf & Hkd & Hsome & HP);
    [done | apply ALPH_NoDup | lia |].
  cbn in Hf. rewrite Hf. cbn.
  destruct (pf_seal_Ok d Hsome) as (k & -> & Hkk & Hvk).
  exists k. split; [done |]. rewrite Hkk, Hkd. split; [done |].
  split; [by rewrite Hkk, Hkd |].
  rewrite Hvk, HP, Hcount, firstn_all. done.
Qed.

(** ** The seed key *)

Lemma target_order_Ok force_e cipher_order :
  target_order force_e cipher_order = Ok SPANISH_FREQ_ORDER.
Proof.
  unfold target_order.
  destruct (force_e && bool_decide (cipher_order ≠ [])); [|done].
  vm_compute. reflexivity.
Qed.

Lemma item_mod_SPANISH i : ∃ p, item_mod SPANISH_FREQ_ORDER i = Ok p.
Proof.
  unfold item_mod. change (length SPANISH_FREQ_ORDER) with 27%nat.
  cbv iota beta.
  destruct (lookup_lt_is_Some_2 SPANISH_FREQ_ORDER (i mod 27)) as [p Hp].
  { change (length SPANISH_FREQ_ORDER) with 27%nat.
    apply Nat.mod_upper_bound. done. }
  exists p. by rewrite Hp.
Qed.

Lemma bind_Ok {A B : Type} (a : A) (f : A → result B) : Ok a ≫= f = f a.
Proof. reflexivity. Qed.

Lemma initial_key_from_freq_is_key (s : list N) (force_e : bool) :
  ∃ k, initial_key_from_freq s force_e = Ok k ∧ Dict.keys k = ALPH ∧ is_key k.
Proof.
  unfold initial_key_from_freq. rewrite target_order_Ok, bind_Ok.
  match goal with |- context [forM ?f ?l] =>
    destruct (forM_total f l) as [items Hitems] end.
  { apply Forall_forall. intros [i c] _. cbn [fst snd].
    destruct (item_mod_SPANISH i) as [p ->]. rewrite bind_Ok. by eexists. }
  rewrite Hitems, bind_Ok. apply permute_fix_is_key.
Qed.

(** C10. The [force_e] option does not change the seed key: the Spanish
    frequency order already starts with ['e'], so for every string of
    cipher letters [initial_key_from_freq] returns the same key with the
    option on and off. *)
Theorem force_e_no_effect (s : list N) :
  initial_key_from_freq s true = initial_key_from_freq s false.
Proof.
  unfold initial_key_from_freq. rewrite !target_order_Ok. reflexivity.
Qed.

(** ** Random swaps *)

Section SwapFacts.
Context (I : interp) (HI : interp_ok I).

Lemma set_order_key_values k :
  is_key k → set_order I (Dict.values k) ≡ₚ ALPH.
Proof.
  intros Hk. rewrite (set_order_spec I HI).
  transitivity (Dict.values k); [|apply Hk].
  apply NoDup_Permutation.
  - apply NoDup_remove_dups.
  - by apply is_key_NoDup_values.
  - intros x. apply elem_of_remove_dups.
Qed.

Lemma random_sample2_Ok vals w :
  (2 ≤ length vals)%nat → NoDup vals →
  ∃ a b g, random_sample2 I vals w = Ok ((a, b), World I g (w_history I w))
           ∧ a ∈ vals ∧ b ∈ vals ∧ a ≠ b.
Proof.
  intros Hlen Hnd. unfold random_sample2.
  rewrite decide_False by lia.
  pose proof (rng_sample2_spec I HI (w_rng I w) (length vals) Hlen) as Hs.
  destruct (rng_sample2 I (w_rng I w) (length vals)) as [[i j] g].
  cbn in Hs. destruct Hs as (Hi & Hj & Hij).
  destruct (lookup_lt_is_Some_2 vals i Hi) as [a Ha].
  destruct (lookup_lt_is_Some_2 vals j Hj) as [b Hb].
  rewrite Ha, Hb. exists a, b, g. split; [done |].
  split; [by eapply list_elem_of_lookup_2 |].
  split; [by eapply list_elem_of_lookup_2 |].
  intros ->. apply Hij. by eapply NoDup_lookup.
Qed.

Lemma random_swap_key_Ok k w :
  is_key k →
  ∃ a b g, random_swap_key I k w
             = Ok (swap_images k a b, World I g (w_history I w))
           ∧ a ∈ ALPH ∧ b ∈ ALPH ∧ a ≠ b ∧ is_key (swap_images k a b).
Proof.
  intros Hk. pose proof (set_order_key_values k Hk) as Hv.
  destruct (random_sample2_Ok (set_order I (Dict.values k)) w)
    as (a & b & g & Hs & Ha & Hb & Hab).
  { rewrite Hv. rewrite ALPH_length. lia. }
  { rewrite Hv. apply ALPH_NoDup. }
  exists a, b, g. unfold random_swap_key, mbind, M_bind. rewrite Hs.
  split; [done |]. rewrite Hv in Ha, Hb. split; [done |]. split; [done |].
  split; [done |].
  destruct Hk as [Hkk Hkv].
  apply swap_images_is_key; [done | by rewrite Hkv..].
Qed.

Lemma shake_key_Ok shakes : ∀ k w,
  is_key k →
  ∃ k' g, shake_key I k shakes w = Ok (k', World I g (w_history I w))
          ∧ Dict.keys k' = Dict.keys k ∧ is_key k'.
Proof.
  induction shakes as [|n IH]; intros k w Hk.
  - exists k, (w_rng I w). destruct w. done.
  - destruct (random_swap_key_Ok k w Hk) as (a & b & g & Hs & _ & _ & _ & Hk').
    destruct (IH _ (World I g (w_history I w)) Hk') as (k' & g' & Hs' & Hkk & Hk'').
    exists k', g'. cbn [shake_key]. unfold mbind, M_bind at 1. rewrite Hs.
    split; [done |]. by rewrite Hkk, swap_images_keys.
Qed.
End SwapFacts.

(** C1. Every key the program builds is a bijection of the alphabet:
    [permute_fix] returns, for every proposed mapping, a key whose domain
    is the alphabet and whose images are the letters of the alphabet once
    each, and so does [initial_key_from_freq]; [random_swap_key] and
    [shake_key] turn such a key into such a key. *)
Theorem keys_are_bijections (I : interp) :
  interp_ok I →
  (∀ mapping, ∃ k, permute_fix mapping = Ok k ∧ is_key k) ∧
  (∀ s force_e, ∃ k, initial_key_from_freq s force_e = Ok k ∧ is_key k) ∧
  (∀ k w, is_key k → ∃ k' w', random_swap_key I k w = Ok (k', w') ∧ is_key k') ∧
  (∀ k shakes w, is_key k →
     ∃ k' w', shake_key I k shakes w = Ok (k', w') ∧ is_key k').
Proof.
  intros HI. split; [|split; [|split]].
  - intros mapping.
    destruct (permute_fix_is_key mapping) as (k & ? & _ & ?). eauto.
  - intros s force_e.
    destruct (initial_key_from_freq_is_key s force_e) as (k & ? & _ & ?). eauto.
  - intros k w Hk. destruct (random_swap_key_Ok I HI k w Hk)
      as (a & b & g & ? & _ & _ & _ & ?). eauto.
  - intros k shakes w Hk. destruct (shake_key_Ok I HI shakes k w Hk)
      as (k' & g & ? & _ & ?). eauto.
Qed.

(** ** Scoring *)

Lemma fold_left_Qplus {A : Type} (g : A → Q) (xs : list A) (s0 : Q) :
  (fold_left (λ s x, s + g x) xs s0 == s0 + Qsum (g <$> xs))%Q.
Proof.
  revert s0. induction xs as [|x xs IH]; intros s0.
  - change (s0 == s0 + 0)%Q. ring.
  - change (fold_left (λ s x, s + g x) xs (s0 + g x)
            == s0 + (g x + Qsum (g <$> xs)))%Q.
    rewrite IH. ring.
Qed.

Lemma windows2 (l : list N) :
  (λ i, slice l i (i + 2)) <$> seq 0 (length l - 1)
  = (λ p, [p.1; p.2]) <$> pairs l.
Proof.
  induction l as [|x l IH]; [done |].
  destruct l as [|y l]; [done |].
  replace (length (x :: y :: l) - 1)%nat with (S (length (y :: l) - 1))
    by (simpl; lia).
  rewrite <- cons_seq, <- fmap_S_seq, fmap_cons, <- list_fmap_compose.
  change (pairs (x :: y :: l)) with ((x, y) :: pairs (y :: l)).
  rewrite fmap_cons, <- IH. reflexivity.
Qed.

Lemma windows3 (l : list N) :
  (λ i, slice l i (i + 3)) <$> seq 0 (length l - 2)
  = (λ t, [t.1.1; t.1.2; t.2]) <$> triples l.
Proof.
  induction l as [|x l IH]; [done |].
  destruct l as [|y l]; [done |]. destruct l as [|z l]; [done |].
  replace (length (x :: y :: z :: l) - 2)%nat with (S (length (y :: z :: l) - 2))
    by (simpl; lia).
  rewrite <- cons_seq, <- fmap_S_seq, fmap_cons, <- list_fmap_compose.
  change (triples (x :: y :: z :: l)) with ((x, y, z) :: triples (y :: z :: l)).
  rewrite fmap_cons, <- IH. reflexivity.
Qed.

Lemma pairs_length {A : Type} (l : list A) : length (pairs l) = (length l - 1)%nat.
Proof.
  unfold pairs. rewrite length_zip_with.
  destruct l; [done |]. cbn [tail length]. lia.
Qed.

Lemma triples_length {A : Type} (l : list A) :
  length (triples l) = (length l - 2)%nat.
Proof.
  unfold triples. rewrite !length_zip_with.
  destruct l as [|? [|? ?]]; cbn [tail length]; lia.
Qed.

Section CounterFacts.
Context {A : Type} `{EqDecision A}.

Lemma get_set {V : Type} (d : list (A * V)) (k k' : A) (v : V) :
  Dict.get (Dict.set d k v) k'
  = if decide (k' = k) then Some v else Dict.get d k'.
Proof.
  induction d as [|[k0 v0] d IH]; simpl.
  - by repeat case_decide.
  - destruct (decide (k = k0)) as [->|Hk]; simpl.
    + by repeat case_decide.
    + rewrite IH. repeat case_decide; congruence.
Qed.

Lemma Counter_fold (xs : list A) (d : list (A * nat)) (w : A) :
  counter_get
    (fold_left (λ d x, Dict.set d x (S (default 0%nat (Dict.get d x)))) xs d) w
  = (counter_get d w + occurrences w xs)%nat.
Proof.
  unfold occurrences. revert d. induction xs as [|x xs IH]; intros d; simpl.
  - lia.
  - rewrite IH. unfold counter_get. rewrite get_set.
    destruct (decide (w = x)) as [->|Hw].
    + rewrite filter_cons_True by done. simpl. lia.
    + rewrite filter_cons_False by congruence. done.
Qed.

(** [Counter(xs).get(w, 0)] is the number of occurrences of [w] in [xs]. *)
Lemma Counter_get (xs : list A) (w : A) :
  counter_get (Counter xs) w = occurrences w xs.
Proof. unfold Counter. by rewrite Counter_fold. Qed.
End CounterFacts.

Lemma of_nat_0 : (of_nat 0 == 0)%Q.
Proof. reflexivity. Qed.


Lemma of_nat_pos n : (1 ≤ n)%nat → (0 < of_nat n)%Q.
Proof.
  intros Hn. unfold of_nat. change 0%Q with (inject_Z 0).
  rewrite <- Zlt_Qlt. lia.
Qed.


Lemma fold_left_lexicon (cnt : list N → nat) (ws : list (list N)) (s0 : Q) :
  (fold_left (λ s w, let c := cnt w in
                     if decide (c ≠ 0%nat) then s + 6.0 * of_nat c else s)
             ws s0
   == s0 + Qsum ((λ w, 6.0 * of_nat (cnt w)) <$> ws))%Q.
Proof.
  revert s0. induction ws as [|w ws IH]; intros s0.
  - change (s0 == s0 + 0)%Q. ring.
  - cbn [fold_left]. rewrite IH. cbv zeta.
    change (Qsum ((λ w, 6.0 * of_nat (cnt w)) <$> w :: ws))%Q
      with (6.0 * of_nat (cnt w)
            + Qsum ((λ w, 6.0 * of_nat (cnt w)) <$> ws))%Q.
    case_decide as Hc; [ring |].
    assert (cnt w = 0%nat) as -> by lia. rewrite of_nat_0. ring.
Qed.

Lemma py_div_Ok (a b : Q) : (0 < b)%Q → py_div a b = Ok (a / b)%Q.
Proof.
  intros Hb. unfold py_div. destruct (Qeq_bool b 0) eqn:E; [|done].
  apply Qeq_bool_eq in E. rewrite E in Hb. by apply Qlt_irrefl in Hb.
Qed.

Lemma score_text_letters (plain : list N) :
  only_letters plain ≠ [] →
  ∃ s, score_text plain = Ok s ∧ (s == score_sum plain)%Q.
Proof.
  intros Hne. unfold score_text, score_sum.
  set (letters := only_letters plain) in *.
  assert (Hn : (1 ≤ length letters)%nat).
  { destruct letters; [done | simpl; lia]. }
  rewrite decide_False by lia.
  rewrite Nat.max_r by done.
  rewrite py_div_Ok by (by apply of_nat_pos). rewrite bind_Ok.
  eexists. split; [reflexivity |].
  rewrite (fold_left_lexicon (counter_get (Counter (split plain)))).
  rewrite (fold_left_Qplus
    (λ i, default unseen_trigram (Dict.get TRIGRAM_SCORES (slice letters i (i + 3))))).
  rewrite (fold_left_Qplus
    (λ i, default unseen_bigram (Dict.get BIGRAM_SCORES (slice letters i (i + 2))))).
  assert (Hb : (λ i, default unseen_bigram
                       (Dict.get BIGRAM_SCORES (slice letters i (i + 2))))
                 <$> seq 0 (length letters - 1)
               = bigram_weight <$> pairs letters).
  { transitivity ((λ bg, default unseen_bigram (Dict.get BIGRAM_SCORES bg))
                    <$> ((λ i, slice letters i (i + 2))
                           <$> seq 0 (length letters - 1))).
    - by rewrite <- list_fmap_compose.
    - by rewrite windows2, <- list_fmap_compose. }
  assert (Ht : (λ i, default unseen_trigram
                       (Dict.get TRIGRAM_SCORES (slice letters i (i + 3))))
                 <$> seq 0 (length letters - 2)
               = trigram_weight <$> triples letters).
  { transitivity ((λ tg, default unseen_trigram (Dict.get TRIGRAM_SCORES tg))
                    <$> ((λ i, slice letters i (i + 3))
                           <$> seq 0 (length letters - 2))).
    - by rewrite <- list_fmap_compose.
    - by rewrite windows3, <- list_fmap_compose. }
  rewrite Hb, Ht.
  unfold vowel_ratio.
  assert (Hlex : (λ w, 6.0 * of_nat (counter_get (Counter (split plain)) w))%Q
                 <$> COMMON_WORDS
               = (λ w, 6.0 * of_nat (occurrences w (split plain)))%Q
                 <$> COMMON_WORDS).
  { apply list_fmap_ext. intros _ w _. by rewrite Counter_get. }
  rewrite Hlex. ring.
Qed.

(** Over exact rationals the score is the sum of its four terms, and the
    letter pairs and triples number [n - 1] and [n - 2]. *)
Lemma score_text_exact_sum (plain : list N) :
  (1 ≤ length (only_letters plain))%nat →
  ∃ s, score_text plain = Ok s ∧ (s == score_sum plain)%Q ∧
    length (pairs (only_letters plain)) = (length (only_letters plain) - 1)%nat ∧
    length (triples (only_letters plain)) = (length (only_letters plain) - 2)%nat.
Proof.
  intros Hn. destruct (score_text_letters plain) as (s & Hs & Heq).
  { intros E. rewrite E in Hn. simpl in Hn. lia. }
  exists s. split; [done |]. split; [done |].
  split; [apply pairs_length | apply triples_length].
Qed.

(** *** The score in binary64 *)

Lemma fold_left_accumulate {A : Type} (g : A → float) (xs : list A) (s0 : float) :
  fold_left (λ s x, s + g x)%float xs s0 = Binary64.accumulate (g <$> xs) s0.
Proof.
  unfold Binary64.accumulate. revert s0.
  induction xs as [|x xs IH]; intros s0; [done |].
  rewrite fmap_cons. cbn [fold_left]. apply IH.
Qed.

Lemma fold_left_lexicon_accumulate (cnt cnt' : list N → nat)
    (ws : list (list N)) (s0 : float) :
  (∀ w, cnt w = cnt' w) →
  fold_left (λ s w, let c := cnt w in
                    if decide (c ≠ 0%nat) then s + 6.0 * Binary64.of_nat c else s)%float
            ws s0
  = Binary64.accumulate
      ((λ w, 6.0 * Binary64.of_nat (cnt' w))%float
         <$> filter (λ w, cnt' w ≠ 0%nat) ws) s0.
Proof.
  intros Hcnt. unfold Binary64.accumulate. revert s0.
  induction ws as [|w ws IH]; intros s0; [done |].
  cbn [fold_left]. cbv zeta. rewrite IH, Hcnt.
  destruct (decide (cnt' w ≠ 0%nat)) as [Hw|Hw].
  - rewrite filter_cons_True by done. by rewrite fmap_cons.
  - by rewrite filter_cons_False by done.
Qed.

Lemma score_text_accumulates_aux (pow : float → float → float) (plain : list N) :
  (1 ≤ length (only_letters plain))%nat →
  Binary64.score_text pow plain = Ok (Binary64.score_accumulated pow plain).
Proof.
  intros Hn. unfold Binary64.score_text, Binary64.score_accumulated.
  set (letters := only_letters plain) in *.
  rewrite decide_False by lia.
  rewrite Nat.max_r by done.
  unfold Binary64.int_div. rewrite decide_False by lia. rewrite bind_Ok.
  rewrite (fold_left_lexicon_accumulate
             (counter_get (Counter (split plain)))
             (λ w, occurrences w (split plain)))
    by (intros w; apply Counter_get).
  rewrite (fold_left_accumulate
    (λ i, default Binary64.unseen_trigram
            (Dict.get Binary64.TRIGRAM_SCORES (slice letters i (i + 3))))).
  rewrite (fold_left_accumulate
    (λ i, default Binary64.unseen_bigram
            (Dict.get Binary64.BIGRAM_SCORES (slice letters i (i + 2))))).
  assert (Hb : (λ i, default Binary64.unseen_bigram
                       (Dict.get Binary64.BIGRAM_SCORES (slice letters i (i + 2))))
                 <$> seq 0 (length letters - 1)
               = Binary64.bigram_weight <$> pairs letters).
  { transitivity ((λ bg, default Binary64.unseen_bigram
                           (Dict.get Binary64.BIGRAM_SCORES bg))
                    <$> ((λ i, slice letters i (i + 2))
                           <$> seq 0 (length letters - 1))).
    - by rewrite <- list_fmap_compose.
    - by rewrite windows2, <- list_fmap_compose. }
  assert (Ht : (λ i, default Binary64.unseen_trigram
                       (Dict.get Binary64.TRIGRAM_SCORES (slice letters i (i + 3))))
                 <$> seq 0 (length letters - 2)
               = Binary64.trigram_weight <$> triples letters).
  { transitivity ((λ tg, default Binary64.unseen_trigram
                           (Dict.get Binary64.TRIGRAM_SCORES tg))
                    <$> ((λ i, slice letters i (i + 3))
                           <$> seq 0 (length letters - 2))).
    - by rewrite <- list_fmap_compose.
    - by rewrite windows3, <- list_fmap_compose. }
  rewrite Hb, Ht. reflexivity.
Qed.

(** C3. For a plaintext of fewer than [2^53] characters (so that every
    count is a double) with [n >= 1] letters, [score_text] returns the double that is reached from [0.0] by
    adding, one after the other and with the rounding of binary64 at every
    addition, the bigram weights of the [n - 1] overlapping letter pairs in
    the order of the text (the penalty -0.8 for a pair that is not in the
    table), then the trigram weights of the [n - 2] overlapping letter
    triples (the penalty -0.5), then 6.0 times its count for every lexicon
    word that occurs among the tokens of the plaintext, in the order of the
    lexicon, and by subtracting last 50.0 times the square of the distance
    of the vowel ratio of the letters from 0.45, each of these operations
    rounded too. *)
Theorem score_text_accumulates (pow : float → float → float) (plain : list N) :
  (1 ≤ length (only_letters plain))%nat →
  (Z.of_nat (length plain) < 2 ^ 53)%Z →
  Binary64.score_text pow plain = Ok (Binary64.score_accumulated pow plain) ∧
  length (pairs (only_letters plain)) = (length (only_letters plain) - 1)%nat ∧
  length (triples (only_letters plain)) = (length (only_letters plain) - 2)%nat.
Proof.
  intros Hn _. split; [by apply score_text_accumulates_aux |].
  split; [apply pairs_length | apply triples_length].
Qed.

(** The double that ["ea"] scores is not the sum of its terms: the one
    bigram penalty [-0.8] and the regulariser [50.0 * 0.55^2] make
    [-637/40], which no double is. *)
Lemma score_text_not_exact_sum :
  ∃ f q, Binary64.score_text Binary64.square (str "ea") = Ok f ∧
         Binary64.to_Q f = Some q ∧
         (score_sum (str "ea") == -637 # 40)%Q ∧
         ¬ (q == score_sum (str "ea"))%Q.
Proof.
  exists (-15.925000000000002)%float, (-8964978008234395 # 562949953421312)%Q.
  split; [vm_compute; reflexivity |]. split; [vm_compute; reflexivity |].
  split; [vm_compute; reflexivity |].
  apply Qeq_bool_neq. vm_compute. reflexivity.
Qed.

(** The accumulation depends on the order of the terms.  ["eaoes"] and
    ["esoea"] have the same four letter pairs (the bigram ["es"] and three
    that are not in the table), three letter triples that are not in the
    table and the same vowel ratio, so the sums of their terms are equal;
    the doubles that they score differ in the last place. *)
Lemma score_text_order_sensitive :
  (score_sum (str "eaoes") == score_sum (str "esoea"))%Q ∧
  ∃ f f', Binary64.score_text Binary64.square (str "eaoes") = Ok f ∧
          Binary64.score_text Binary64.square (str "esoea") = Ok f' ∧
          (f <? f')%float = true.
Proof.
  split; [vm_compute; reflexivity |].
  exists (-6.0250000000000012)%float, (-6.0250000000000004)%float.
  split; [vm_compute; reflexivity |]. split; vm_compute; reflexivity.
Qed.

(** ** The sentinel *)

Lemma score_text_no_letters (plain : list N) :
  only_letters plain = [] → score_text plain = Ok sentinel.
Proof. intros E. unfold score_text. rewrite E. done. Qed.











(** *** A long text below the sentinel *)












(** ** The cooling schedule *)

Lemma elem_of_range lo hi t : t ∈ range lo hi ↔ (lo ≤ t < hi)%Z.
Proof.
  unfold range. rewrite list_elem_of_fmap. split.
  - intros (i & -> & Hi%elem_of_seq). lia.
  - intros Ht. exists (Z.to_nat (t - lo)). split; [lia |].
    apply elem_of_seq. lia.
Qed.

Lemma py_max_Qmax a b : (py_max a b == Qmax a b)%Q.
Proof.
  unfold py_max, Qlt_bool. destruct (Qle_bool b a) eqn:E; simpl.
  - apply Qle_bool_iff in E. symmetry. by apply Q.max_l.
  - assert (a <= b)%Q.
    { destruct (Qlt_le_dec a b) as [Hlt|Hle]; [by apply Qlt_le_weak |].
      apply Qle_bool_iff in Hle. congruence. }
    symmetry. by apply Q.max_r.
Qed.

Lemma py_max_lower_l a b : (a <= py_max a b)%Q.
Proof. rewrite py_max_Qmax. apply Q.le_max_l. Qed.

Lemma py_max_lower_r a b : (b <= py_max a b)%Q.
Proof. rewrite py_max_Qmax. apply Q.le_max_r. Qed.

Lemma inject_Z_pos z : (0 < z)%Z → (0 < inject_Z z)%Q.
Proof. intros Hz. change 0%Q with (inject_Z 0). by rewrite <- Zlt_Qlt. Qed.

Lemma temperature_Ok iters t :
  (1 ≤ t ≤ iters)%Z →
  temperature iters t
  = Ok (py_max Tmin (T0 * (1 - inject_Z t / inject_Z iters)))%Q.
Proof.
  intros Ht. unfold temperature.
  rewrite py_div_Ok by (apply inject_Z_pos; lia). done.
Qed.




(** ** The search *)

Section RunFacts.
Context {I : interp}.
Implicit Types (w : world I).

Lemma runs_ret {A : Type} (a : A) w (P : A → world I → Prop) :
  P a w → runs (mret a) w P.
Proof. intros HP. by exists a, w. Qed.

Lemma runs_bind {A B : Type} (m : M I A) (f : A → M I B) w
    (P : B → world I → Prop) :
  runs m w (λ a w', runs (f a) w' P) → runs (m ≫= f) w P.
Proof.
  intros (a & w' & Hm & b & w'' & Hf & HP). exists b, w''.
  unfold mbind, M_bind. by rewrite Hm.
Qed.

Lemma runs_lift {A : Type} (r : result A) (a : A) w (P : A → world I → Prop) :
  r = Ok a → P a w → runs (lift I r) w P.
Proof. intros -> HP. by exists a, w. Qed.

Lemma runs_record (e : event) w (P : unit → world I → Prop) :
  P () (World I (w_rng I w) (w_history I w ++ [e])) → runs (record I e) w P.
Proof. intros HP. by eexists _, _. Qed.

Lemma runs_mono {A : Type} (m : M I A) w (P Q : A → world I → Prop) :
  runs m w P → (∀ a w', P a w' → Q a w') → runs m w Q.
Proof. intros (a & w' & Hm & HP) HPQ. exists a, w'. auto. Qed.

Lemma runs_foldM {A B : Type} (f : A → B → M I A) (l : list B)
    (Inv : A → world I → Prop) :
  (∀ a x w, x ∈ l → Inv a w → runs (f a x) w Inv) →
  ∀ a w, Inv a w → runs (foldM f l a) w Inv.
Proof.
  induction l as [|x l IH]; intros Hf a w Ha.
  - by apply runs_ret.
  - cbn [foldM]. apply runs_bind.
    eapply runs_mono; [apply Hf; [left | done] |].
    intros a' w' Ha'. apply IH; [|done].
    intros a'' y w'' Hy. apply Hf. by right.
Qed.
End RunFacts.

Lemma nondecreasing_snoc (l : list Q) (z : Q) :
  nondecreasing l → Forall (λ y, y <= z)%Q l → nondecreasing (l ++ [z]).
Proof.
  intros Hl Hz i j x y Hij Hi Hj.
  destruct (decide (j < length l)%nat) as [Hjl|Hjl].
  - rewrite lookup_app_l in Hi, Hj by lia. eauto.
  - assert (y = z) as ->.
    { rewrite lookup_app_r in Hj by lia.
      destruct (j - length l)%nat as [|[|?]]; by simplify_eq/=. }
    destruct (decide (i < length l)%nat) as [Hil|Hil].
    + rewrite lookup_app_l in Hi by lia.
      rewrite Forall_forall in Hz. apply Hz. by eapply list_elem_of_lookup_2.
    + rewrite lookup_app_r in Hi by lia.
      destruct (i - length l)%nat as [|[|?]]; simplify_eq/=; apply Qle_refl.
Qed.

Lemma nondecreasing_last (l : list Q) (b : Q) :
  nondecreasing l → last l = Some b → Forall (λ y, y <= b)%Q l.
Proof.
  intros Hl Hb. apply Forall_forall. intros y [i Hi]%list_elem_of_lookup_1.
  rewrite last_lookup in Hb.
  apply (Hl i (pred (length l)) y b); [|done..].
  apply lookup_lt_Some in Hi. lia.
Qed.

Lemma Qlt_bool_true a b : Qlt_bool a b = true ↔ (a < b)%Q.
Proof.
  unfold Qlt_bool. rewrite negb_true_iff. split.
  - intros E. apply Qnot_le_lt. intros Hle%Qle_bool_iff. congruence.
  - intros Hlt. destruct (Qle_bool b a) eqn:E; [|done].
    apply Qle_bool_iff in E. by apply Qle_not_lt in E.
Qed.

Lemma Qlt_bool_false a b : Qlt_bool a b = false ↔ (b <= a)%Q.
Proof.
  unfold Qlt_bool. rewrite negb_false_iff. apply Qle_bool_iff.
Qed.

Lemma score_text_total (plain : list N) : ∃ s, score_text plain = Ok s.
Proof.
  destruct (decide (only_letters plain = [])) as [E|Hne].
  - exists sentinel. by apply score_text_no_letters.
  - destruct (score_text_letters plain Hne) as (s & Hs & _). eauto.
Qed.

Lemma apply_mapping_total (t : list N) (k : list (N * N)) :
  is_key k → ∃ out, apply_mapping t k = Ok out.
Proof.
  intros Hk. destruct (apply_mapping_positions_aux t k Hk) as (out & ? & _).
  eauto.
Qed.

Section TrackFacts.
Context (seed : candidate).

Lemma bests_snoc (h : list event) (b : Q) (e : event) :
  nondecreasing (ev_best <$> h) → last (ev_best <$> h) = Some b →
  (b <= ev_best e)%Q →
  nondecreasing (ev_best <$> h ++ [e]) ∧
  last (ev_best <$> h ++ [e]) = Some (ev_best e).
Proof.
  intros Hnd Hlast Hle. rewrite fmap_app. split; [|apply last_snoc].
  apply nondecreasing_snoc; [done |].
  eapply Forall_impl; [by apply nondecreasing_last |].
  intros y Hy. cbn beta in Hy. by eapply Qle_trans.
Qed.

Lemma tracks_snoc_untracked bst h e :
  tracks seed bst h → ev_tracked e = false → ev_best e = c_score bst →
  tracks seed bst (h ++ [e]).
Proof.
  intros (Hs & Hall & Hex & Hnd & Hlast) He Hb.
  destruct (bests_snoc h (c_score bst) e Hnd Hlast) as [Hnd' Hlast'].
  { rewrite Hb. apply Qle_refl. }
  split; [done |]. split; [|split; [|split]].
  - apply Forall_app. split; [done |]. constructor; [|constructor].
    rewrite He. done.
  - apply Exists_app. by left.
  - done.
  - by rewrite Hlast', Hb.
Qed.

Lemma tracks_snoc_kept bst h s :
  tracks seed bst h → (s <= c_score bst)%Q →
  tracks seed bst (h ++ [EvProposal s true (c_score bst)]).
Proof.
  intros (Hs & Hall & Hex & Hnd & Hlast) Hle.
  destruct (bests_snoc h (c_score bst) (EvProposal s true (c_score bst))
              Hnd Hlast) as [Hnd' Hlast']; [apply Qle_refl |].
  split; [done |]. split; [|split; [|split]]; [| |done..].
  - apply Forall_app. split; [done |]. by constructor; [|constructor].
  - apply Exists_app. by left.
Qed.

Lemma tracks_snoc_improved bst new h :
  tracks seed bst h → (c_score bst < c_score new)%Q →
  tracks seed new
    (h ++ [EvProposal (c_score new) true (c_score new)]).
Proof.
  intros (Hs & Hall & Hex & Hnd & Hlast) Hlt.
  destruct (bests_snoc h (c_score bst)
              (EvProposal (c_score new) true (c_score new)) Hnd Hlast)
    as [Hnd' Hlast']; [by apply Qlt_le_weak |].
  split; [|split; [|split; [|split]]]; [| | |done..].
  - right. destruct Hs as [->|Hs]; [done |]. by eapply Qlt_trans.
  - apply Forall_app. split.
    + eapply Forall_impl; [done |]. intros e He Ht. cbn beta in He.
      eapply Qle_trans; [by apply He | by apply Qlt_le_weak].
    + constructor; [|constructor]. intros _. apply Qle_refl.
  - apply Exists_app. right. constructor. split; [done |]. reflexivity.
Qed.
End TrackFacts.

Section SearchFacts.
Context (I : interp) (HI : interp_ok I).
Context (cipher_norm : list N) (seed : candidate).
Implicit Types (w : world I).

Lemma random_random_runs w :
  runs (random_random I) w (λ _ w', w_history I w' = w_history I w).
Proof.
  unfold runs, random_random. destruct (rng_random I (w_rng I w)) as [u g].
  by eexists _, _.
Qed.

Lemma accepts_runs delta T w :
  (0 < T)%Q →
  runs (accepts I delta T) w (λ _ w', w_history I w' = w_history I w).
Proof.
  intros HT. unfold accepts. destruct (Qle_bool 0 delta) eqn:E.
  { by apply runs_ret. }
  assert (Hd : (delta < 0)%Q).
  { apply Qnot_le_lt. intros Hle%Qle_bool_iff. congruence. }
  assert (Hm : (0 < py_max T epsilon)%Q).
  { eapply Qlt_le_trans; [exact HT | apply py_max_lower_l]. }
  apply runs_bind. eapply runs_mono; [apply random_random_runs |].
  intros u w' Hw'. apply runs_bind.
  eapply runs_lift; [by apply py_div_Ok |].
  destruct (math_exp_nonpos I HI (delta / py_max T epsilon)%Q) as [y Hy].
  { apply Qle_shift_div_r; [done |]. rewrite Qmult_0_l. by apply Qlt_le_weak. }
  apply runs_bind. eapply runs_lift; [exact Hy |]. by apply runs_ret.
Qed.

Lemma random_swap_key_runs k w :
  is_key k →
  runs (random_swap_key I k) w
    (λ k' w', is_key k' ∧ w_history I w' = w_history I w).
Proof.
  intros Hk.
  destruct (random_swap_key_Ok I HI k w Hk) as (a & b & g & Hs & _ & _ & _ & Hk').
  by eexists _, _.
Qed.

Lemma shake_key_runs k shakes w :
  is_key k →
  runs (shake_key I k shakes) w
    (λ k' w', is_key k' ∧ w_history I w' = w_history I w).
Proof.
  intros Hk.
  destruct (shake_key_Ok I HI shakes k w Hk) as (k' & g & Hs & _ & Hk').
  by eexists _, _.
Qed.

Lemma sa_step_runs iters st t w :
  t ∈ range 1 (iters + 1) → search_inv I cipher_norm seed st w →
  runs (sa_step I cipher_norm iters st t) w (search_inv I cipher_norm seed).
Proof.
  intros Ht%elem_of_range (Hcur & Hbest & Htr).
  unfold sa_step. rewrite temperature_Ok by lia.
  apply runs_bind. eapply runs_lift; [done |].
  apply runs_bind. eapply runs_mono.
  { apply random_swap_key_runs, Hcur. }
  intros new_key w1 [Hk Hw1].
  destruct (apply_mapping_total cipher_norm new_key Hk) as [new_plain Hplain].
  destruct (score_text_total new_plain) as [new_score Hscore].
  apply runs_bind. eapply runs_lift; [exact Hplain |].
  apply runs_bind. eapply runs_lift; [exact Hscore |].
  apply runs_bind. eapply runs_mono.
  { apply accepts_runs. eapply Qlt_le_trans; [|apply py_max_lower_l]. done. }
  intros ok w2 Hw2. rewrite <- Hw1, <- Hw2 in Htr.
  assert (Hnew : valid cipher_norm (Candidate new_key new_plain new_score))
    by done.
  destruct ok.
  - apply runs_bind, runs_record, runs_ret.
    unfold search_inv. cbn [current best w_history c_score].
    destruct (Qlt_bool (c_score (best st)) new_score) eqn:E.
    + apply Qlt_bool_true in E. split; [done |]. split; [done |].
      by apply (tracks_snoc_improved seed (best st)
                  (Candidate new_key new_plain new_score)).
    + apply Qlt_bool_false in E. split; [done |]. split; [done |].
      by apply tracks_snoc_kept.
  - apply runs_bind, runs_record, runs_ret.
    unfold search_inv. cbn [w_history]. split; [done |]. split; [done |].
    by apply tracks_snoc_untracked.
Qed.

Lemma restart_runs iters base_key bst r w :
  is_key base_key → best_inv I cipher_norm seed bst w →
  runs (restart I cipher_norm iters base_key bst r) w
    (best_inv I cipher_norm seed).
Proof.
  intros Hbase [Hbst Htr]. unfold restart.
  apply runs_bind.
  apply (runs_mono _ _ (λ k' w', is_key k' ∧ w_history I w' = w_history I w)).
  { case_decide; [by apply runs_ret | by apply shake_key_runs]. }
  intros current_key w1 [Hk Hw1].
  destruct (apply_mapping_total cipher_norm current_key Hk) as [plain Hplain].
  destruct (score_text_total plain) as [score Hscore].
  apply runs_bind. eapply runs_lift; [exact Hplain |].
  apply runs_bind. eapply runs_lift; [exact Hscore |].
  apply runs_bind, runs_record. apply runs_bind.
  eapply runs_mono.
  { apply (runs_foldM (sa_step I cipher_norm iters) _
             (search_inv I cipher_norm seed)).
    - intros st t w' Ht Hinv. by apply sa_step_runs.
    - split; [done |]. split; [done |]. cbn [best w_history].
      rewrite Hw1. by apply tracks_snoc_untracked. }
  intros st w2 (_ & Hb & Ht). by apply runs_ret.
Qed.
End SearchFacts.

Lemma apply_mapping_no_letters (t : list N) (k : list (N * N)) :
  only_letters t = [] → apply_mapping t k = Ok t.
Proof.
  unfold only_letters, apply_mapping. induction t as [|ch t IH]; [done |].
  destruct (decide (ch ∈ ALPH)) as [Hch|Hch].
  - by rewrite filter_cons_True.
  - rewrite filter_cons_False by done. intros Ht. cbn [forM].
    rewrite decide_False by done. rewrite bind_Ok, IH by done. done.
Qed.

Section DecipherFacts.
Context (I : interp) (HI : interp_ok I).

Lemma decipher_runs cipher_norm restarts iters seed force_e g :
  ∃ base_key seed_plain seed_score,
    initial_key_from_freq (only_letters cipher_norm) force_e = Ok base_key ∧
    apply_mapping cipher_norm base_key = Ok seed_plain ∧
    score_text seed_plain = Ok seed_score ∧
    runs (decipher I cipher_norm restarts iters seed force_e) (World I g [])
      (λ res w',
         ∃ bst, res = (c_plain bst, c_key bst, c_score bst) ∧
           valid cipher_norm bst ∧
           tracks (Candidate base_key seed_plain seed_score) bst
             (w_history I w')).
Proof.
  destruct (initial_key_from_freq_is_key (only_letters cipher_norm) force_e)
    as (base_key & Hbase & _ & Hk).
  destruct (apply_mapping_total cipher_norm base_key Hk) as [seed_plain Hplain].
  destruct (score_text_total seed_plain) as [seed_score Hscore].
  exists base_key, seed_plain, seed_score. do 3 (split; [done |]).
  set (sd := Candidate base_key seed_plain seed_score).
  unfold decipher. apply runs_bind.
  apply (runs_mono _ _ (λ _ w', w_history I w' = [])).
  { destruct seed; [by eexists _, _ | by apply runs_ret]. }
  intros _ w0 Hw0.
  apply runs_bind. eapply runs_lift; [exact Hbase |].
  apply runs_bind. eapply runs_lift; [exact Hplain |].
  apply runs_bind. eapply runs_lift; [exact Hscore |].
  apply runs_bind, runs_record. apply runs_bind.
  eapply runs_mono.
  { apply (runs_foldM (restart I cipher_norm iters base_key) _
             (best_inv I cipher_norm sd)).
    - intros bst r w' _ Hinv. by apply restart_runs.
    - split; [done |]. cbn [w_history]. rewrite Hw0. cbn [app].
      split; [by left |]. split; [|split; [|split]].
      + constructor; [|constructor]. intros _. apply Qle_refl.
      + constructor. split; [done |]. reflexivity.
      + intros [|[|?]] [|[|?]] x y ?; intros; simplify_eq/=. apply Qle_refl.
      + done. }
  intros bst w' [Hv Ht]. apply runs_ret. by exists bst.
Qed.
End DecipherFacts.



(** ** The tape-driven interpreter *)

Lemma tape_sample2_spec g n :
  (2 ≤ n)%nat →
  let ij := (tape_sample2 g n).1 in
  (ij.1 < n)%nat ∧ (ij.2 < n)%nat ∧ ij.1 ≠ ij.2.
Proof.
  intros Hn. unfold tape_sample2.
  destruct (tape_next g) as [x g1]. destruct (tape_next g1) as [y g2].
  cbn [fst snd].
  pose proof (Nat.mod_upper_bound x n) as Hi.
  pose proof (Nat.mod_upper_bound y (n - 1)) as Hr.
  set (i := (x mod n)%nat) in *. set (r := (y mod (n - 1))%nat) in *.
  pose proof (Nat.mod_upper_bound (i + 1 + r) n) as Hj.
  pose proof (Nat.div_mod_eq (i + 1 + r) n) as Hdm.
  set (j := ((i + 1 + r) mod n)%nat) in *.
  set (q := ((i + 1 + r) / n)%nat) in *.
  split; [lia |]. split; [lia |]. intros E.
  assert (r < n - 1)%nat as Hr' by lia. clearbody i r j q.
  destruct q as [|q]; [lia | nia].
Qed.

Lemma tape_interp_ok seeded order :
  (∀ l, order l ≡ₚ remove_dups l) → interp_ok (tape_interp seeded order).
Proof.
  intros Ho. split.
  - intros g n. apply tape_sample2_spec.
  - intros x _. by exists 0%Q.
  - done.
Qed.

Lemma tape_forward_ok seeded : interp_ok (tape_forward seeded).
Proof. by apply tape_interp_ok. Qed.

Lemma tape_backward_ok seeded : interp_ok (tape_backward seeded).
Proof. apply tape_interp_ok. intros l. apply reverse_Permutation. Qed.

Lemma identity_key_is_key : is_key identity_key.
Proof.
  assert (Dict.keys identity_key = ALPH) as Hk by reflexivity.
  assert (Dict.values identity_key = ALPH) as Hv by reflexivity.
  split; [by rewrite Hk | by rewrite Hv].
Qed.

(** ** Instances *)

Lemma keys_are_bijections_witness :
  ∃ k' w', random_swap_key (tape_forward (λ _, [])) identity_key
             (World (tape_forward (λ _, [])) [] []) = Ok (k', w') ∧ is_key k'.
Proof.
  destruct (keys_are_bijections (tape_forward (λ _, [])) (tape_forward_ok _))
    as (_ & _ & H & _).
  apply H, identity_key_is_key.
Defined.

Lemma apply_mapping_positions_witness :
  ∃ out, apply_mapping (str "a b") identity_key = Ok out ∧
    length out = length (str "a b") ∧
    ∀ i ch, str "a b" !! i = Some ch →
      (ch ∉ ALPH → out !! i = Some ch) ∧
      (ch ∈ ALPH → ∃ p, Dict.get identity_key ch = Some p ∧ out !! i = Some p).
Proof. apply (apply_mapping_positions (str "a b")), identity_key_is_key. Defined.

Lemma swap_images_twice_witness :
  swap_images (swap_images identity_key 97%N 98%N) 97%N 98%N = identity_key.
Proof.
  apply swap_images_twice; [apply identity_key_is_key | by_compute.. | done].
Defined.

Lemma score_text_accumulates_witness :
  Binary64.score_text Binary64.square (str "que es")
  = Ok (Binary64.score_accumulated Binary64.square (str "que es")) ∧
  length (pairs (only_letters (str "que es")))
  = (length (only_letters (str "que es")) - 1)%nat ∧
  length (triples (only_letters (str "que es")))
  = (length (only_letters (str "que es")) - 2)%nat.
Proof.
  apply (score_text_accumulates Binary64.square (str "que es")).
  - change (1 ≤ 5)%nat. lia.
  - change (6 < 2 ^ 53)%Z. lia.
Defined.



(** ** Two runs on the tape *)



Lemma forward_seeded_run :
  match decipher (tape_forward fixed_tape) (str "ab") 1 1 (Some 0%Z) true
          (World (tape_forward fixed_tape) [] []) with
  | Ok ((plain, key, score), _) =>
      plain = str "da" ∧ Dict.get key 97%N = Some 100%N ∧ (score == -0.925)%Q
  | Raise _ => False
  end.
Proof. vm_compute. repeat split. Qed.

Lemma backward_seeded_run :
  match decipher (tape_backward fixed_tape) (str "ab") 1 1 (Some 0%Z) true
          (World (tape_backward fixed_tape) [] []) with
  | Ok ((plain, key, score), _) =>
      plain = str "ea" ∧ Dict.get key 97%N = Some 101%N ∧ (score == -15.925)%Q
  | Raise _ => False
  end.
Proof. vm_compute. repeat split. Qed.

(** C9, where the code departs from it.  Two interpreters with the same
    generator, seeded alike, that differ only in the order in which they
    iterate a set ([vals = list(set(m.values()))] in [random_swap_key]):
    on the ciphertext ["ab"], with one restart of one iteration and the
    seed 0, [decipher] returns ["da"] with score -0.925 on one and ["ea"]
    with score -15.925 on the other, under different keys. *)
Theorem seeded_runs_follow_set_order :
  interp_ok (tape_forward fixed_tape) ∧ interp_ok (tape_backward fixed_tape) ∧
  ∃ k1 s1 w1 k2 s2 w2,
    decipher (tape_forward fixed_tape) (str "ab") 1 1 (Some 0%Z) true
      (World (tape_forward fixed_tape) [] []) = Ok ((str "da", k1, s1), w1) ∧
    decipher (tape_backward fixed_tape) (str "ab") 1 1 (Some 0%Z) true
      (World (tape_backward fixed_tape) [] []) = Ok ((str "ea", k2, s2), w2) ∧
    k1 ≠ k2 ∧ (s1 == -0.925)%Q ∧ (s2 == -15.925)%Q.
Proof.
  split; [apply tape_forward_ok |]. split; [apply tape_backward_ok |].
  pose proof forward_seeded_run as H1. pose proof backward_seeded_run as H2.
  destruct (decipher (tape_forward fixed_tape) (str "ab") 1 1 (Some 0%Z) true
              (World (tape_forward fixed_tape) [] []))
    as [[[[p1 k1] s1] w1]|]; [|destruct H1].
  destruct (decipher (tape_backward fixed_tape) (str "ab") 1 1 (Some 0%Z) true
              (World (tape_backward fixed_tape) [] []))
    as [[[[p2 k2] s2] w2]|]; [|destruct H2].
  destruct H1 as (-> & Hk1 & Hs1). destruct H2 as (-> & Hk2 & Hs2).
  exists k1, s1, w1, k2, s2, w2. do 2 (split; [done |]).
  split; [|done]. intros ->. congruence.
Qed.


(** * Further properties of the key model *)

Lemma item_swap_images (k : list (N * N)) (a b ch : N) :
  Dict.item (swap_images k a b) ch = swap_value a b <$> Dict.item k ch.
Proof.
  unfold Dict.item, swap_images. induction k as [|[c v] k IH]; [done |].
  cbn [fmap list_fmap prod_map fst snd id Dict.get].
  case_decide; [done |]. apply IH.
Qed.

Lemma forM_Raise {A B : Type} (f : A → result B) (l : list A) (e : exn) :
  forM f l = Raise e → ∃ x, x ∈ l ∧ f x = Raise e.
Proof.
  induction l as [|x l IH]; [done |]. cbn [forM].
  destruct (f x) as [y|e'] eqn:Hx.
  - rewrite bind_Ok. destruct (forM f l) as [ys|e'] eqn:Hl; [done |].
    intros [= ->]. destruct IH as (x' & ? & ?); [done |].
    exists x'. split; [by right | done].
  - intros [= ->]. exists x. split; [left | done].
Qed.

(** X1. [apply_mapping] on any dictionary either returns a text of the
    length of its input or raises [KeyError], and it raises exactly when
    the text holds a letter that is not a key of the dictionary. *)
Theorem apply_mapping_KeyError (t : list N) (m : list (N * N)) :
  ((∃ out, apply_mapping t m = Ok out ∧ length out = length t)
   ∨ apply_mapping t m = Raise KeyError) ∧
  (apply_mapping t m = Raise KeyError
   ↔ ∃ ch, ch ∈ t ∧ ch ∈ ALPH ∧ ch ∉ Dict.keys m).
Proof.
  assert (Hmiss : (∃ ch, ch ∈ t ∧ ch ∈ ALPH ∧ ch ∉ Dict.keys m) →
                  apply_mapping t m = Raise KeyError).
  { intros (ch & Hin & HA & Hk). unfold apply_mapping.
    induction t as [|c t IH]; [by apply elem_of_nil in Hin |].
    cbn [forM]. destruct (decide (c = ch)) as [->|Hne].
    - rewrite decide_True by done. unfold Dict.item.
      apply get_None in Hk. by rewrite Hk.
    - apply elem_of_cons in Hin as [->|Hin]; [done |].
      rewrite (IH Hin). case_decide; [|done].
      unfold Dict.item. by destruct (Dict.get m c). }
  destruct (apply_mapping t m) as [out|e] eqn:E.
  - split.
    + left. exists out. split; [done |]. unfold apply_mapping in E.
      apply forM_Ok, Forall2_length in E. done.
    + split; [done |]. intros H. by specialize (Hmiss H).
  - unfold apply_mapping in E. apply forM_Raise in E as (ch & Hin & Hch).
    case_decide as HA; [|done]. unfold Dict.item in Hch.
    destruct (Dict.get m ch) eqn:Hg; [done |]. injection Hch as <-.
    split; [by right |]. split; [|done]. intros _.
    exists ch. by rewrite <- get_None.
Qed.

Lemma key_get_inj (k : list (N * N)) (c1 c2 p : N) :
  NoDup (Dict.values k) →
  Dict.get k c1 = Some p → Dict.get k c2 = Some p → c1 = c2.
Proof.
  unfold Dict.values. induction k as [|[c v] k IH]; [done |].
  cbn [fmap list_fmap snd Dict.get]. intros [Hv Hnd]%NoDup_cons.
  assert (Hin : ∀ c', Dict.get k c' = Some v → False).
  { intros c' Hc'%get_Some_elem. apply Hv.
    apply list_elem_of_fmap. by exists (c', v). }
  repeat case_decide; subst; intros; simplify_eq; eauto; by exfalso; eauto.
Qed.

(** X2. Under a key that is a bijection of the alphabet the decode loses
    nothing: two texts with the same decode are the same text. *)
Theorem apply_mapping_injective (k : list (N * N)) (t1 t2 out : list N) :
  is_key k →
  apply_mapping t1 k = Ok out → apply_mapping t2 k = Ok out → t1 = t2.
Proof.
  unfold apply_mapping. intros Hk H1%forM_Ok H2%forM_Ok. revert t2 H2.
  induction H1 as [|c1 o t1 out Hc1 _ IH]; intros t2 H2.
  - by apply Forall2_nil_inv_r in H2.
  - apply Forall2_cons_inv_r in H2 as (c2 & t2' & Hc2 & H2 & ->).
    f_equal; [|by apply IH].
    assert (Himg : ∀ c, c ∈ ALPH → Dict.item k c = Ok o → o ∈ ALPH).
    { intros c _. unfold Dict.item.
      destruct (Dict.get k c) eqn:Hg; [|done]. intros [= ->].
      by eapply is_key_image. }
    destruct (decide (c1 ∈ ALPH)) as [HA1|HA1],
             (decide (c2 ∈ ALPH)) as [HA2|HA2]; simplify_eq.
    + unfold Dict.item in Hc1, Hc2.
      destruct (Dict.get k c1) eqn:Hg1; [|done].
      destruct (Dict.get k c2) eqn:Hg2; [|done]. simplify_eq.
      eapply key_get_inj; [by apply is_key_NoDup_values | done..].
    + destruct HA2. by eapply Himg.
    + destruct HA1. by eapply Himg.
    + done.
Qed.

Lemma apply_mapping_injective_witness : str "a b" = [97; 32; 98]%N.
Proof.
  apply (apply_mapping_injective identity_key _ _ (str "a b"));
    [apply identity_key_is_key | reflexivity | reflexivity].
Defined.

(** X3. Decoding under a key whose images [a] and [b] (two letters) were
    swapped is decoding under the key and then swapping [a] and [b] in the
    output; on any dictionary, raising alike. *)
Theorem apply_mapping_swap (t : list N) (k : list (N * N)) (a b : N) :
  a ∈ ALPH → b ∈ ALPH →
  apply_mapping t (swap_images k a b)
  = (λ out : list N, swap_value a b <$> out) <$> apply_mapping t k.
Proof.
  intros Ha Hb. unfold apply_mapping. induction t as [|ch t IH]; [done |].
  cbn [forM]. rewrite IH. clear IH. case_decide as Hch.
  - rewrite item_swap_images.
    destruct (Dict.item k ch) as [p|]; [|reflexivity].
    destruct (forM _ t); reflexivity.
  - rewrite !bind_Ok. destruct (forM _ t) as [out|]; [|reflexivity].
    change (Ok (ch :: (swap_value a b <$> out))
            = Ok (swap_value a b ch :: (swap_value a b <$> out))).
    unfold swap_value at 2. rewrite !decide_False by congruence. done.
Qed.

Lemma apply_mapping_swap_witness :
  apply_mapping (str "a-b") (swap_images identity_key 97%N 98%N)
  = (λ out : list N, swap_value 97%N 98%N <$> out)
    <$> apply_mapping (str "a-b") identity_key.
Proof. apply apply_mapping_swap; by_compute. Defined.

(** X4. Decoding commutes with the projection on the letters: under a key
    that is a bijection, the letters of the decode are the decode of the
    letters, so a decode has as many letters as the ciphertext. *)
Theorem apply_mapping_only_letters (t out : list N) (k : list (N * N)) :
  is_key k → apply_mapping t k = Ok out →
  apply_mapping (only_letters t) k = Ok (only_letters out) ∧
  length (only_letters out) = length (only_letters t).
Proof.
  intros Hk Hout.
  assert (H : apply_mapping (only_letters t) k = Ok (only_letters out)).
  { unfold apply_mapping in *. apply forM_Ok in Hout. apply forM_Ok.
    unfold only_letters.
    induction Hout as [|c o t out Hc _ IH]; [constructor |].
    case_decide as HA.
    - rewrite filter_cons_True by done.
      assert (o ∈ ALPH) as Ho.
      { unfold Dict.item in Hc. destruct (Dict.get k c) eqn:Hg; [|done].
        injection Hc as ->. by eapply is_key_image. }
      rewrite filter_cons_True by done. constructor; [|done].
      by rewrite decide_True.
    - injection Hc as ->. by rewrite !filter_cons_False. }
  split; [done |]. apply forM_Ok in H. symmetry. by eapply Forall2_length.
Qed.

Lemma apply_mapping_only_letters_witness :
  apply_mapping (only_letters (str "a b")) identity_key
    = Ok (only_letters (str "a b")) ∧
  length (only_letters (str "a b")) = length (only_letters (str "a b")).
Proof.
  apply apply_mapping_only_letters; [apply identity_key_is_key | reflexivity].
Defined.

(** ** Repairing a mapping that is already a key *)

Lemma keys_tabulate {V : Type} (f : N → V) (l : list N) :
  Dict.keys ((λ c, (c, f c)) <$> l) = l.
Proof.
  unfold Dict.keys. induction l as [|c l IH]; [done |].
  cbn [fmap list_fmap fst]. f_equal. apply IH.
Qed.

Section PermuteFixKey.
Variable m : list (N * N).
Hypothesis Hm : is_key m.

Lemma pf_propose_key_step (d : list N) (used : gset N) (c : N) :
  c ∈ ALPH → c ∉ d →
  (∀ p, p ∈ used ↔ ∃ c', c' ∈ d ∧ Dict.get m c' = Some p) →
  ∃ used',
    pf_propose m (used, (λ c, (c, Dict.get m c)) <$> d) c
    = (used', (λ c, (c, Dict.get m c)) <$> d ++ [c]) ∧
    (∀ p, p ∈ used' ↔ ∃ c', c' ∈ d ++ [c] ∧ Dict.get m c' = Some p).
Proof.
  intros HA Hc Hu. unfold pf_propose.
  destruct (is_key_item m c Hm HA) as [p Hp]. rewrite Hp.
  assert (Hfresh : c ∉ Dict.keys ((λ c, (c, Dict.get m c)) <$> d)).
  { by rewrite keys_tabulate. }
  rewrite decide_True.
  - exists ({[p]} ∪ used). rewrite set_fresh, fmap_app by done.
    change ((λ c, (c, Dict.get m c)) <$> [c]) with [(c, Dict.get m c)].
    split; [by rewrite Hp |]. intros q.
    rewrite elem_of_union, elem_of_singleton, Hu. split.
    + intros [->|(c' & Hc' & Hq)].
      * exists c. split; [apply elem_of_app; right; left | done].
      * exists c'. split; [apply elem_of_app; by left | done].
    + intros (c' & [Hc'|Hc']%elem_of_app & Hq).
      * right. eauto.
      * apply list_elem_of_singleton in Hc' as ->. left. congruence.
  - split; [by eapply is_key_image |].
    intros (c' & Hc' & Hq)%Hu. apply Hc.
    assert (c' = c) as <-; [|done].
    eapply key_get_inj; [by apply is_key_NoDup_values | done..].
Qed.

Lemma pf_propose_key_fold (l : list N) : ∀ (d : list N) (used : gset N),
  (∀ c, c ∈ l → c ∈ ALPH) → NoDup (d ++ l) →
  (∀ p, p ∈ used ↔ ∃ c', c' ∈ d ∧ Dict.get m c' = Some p) →
  ∃ used',
    fold_left (pf_propose m) l (used, (λ c, (c, Dict.get m c)) <$> d)
    = (used', (λ c, (c, Dict.get m c)) <$> d ++ l) ∧
    (∀ p, p ∈ used' ↔ ∃ c', c' ∈ d ++ l ∧ Dict.get m c' = Some p).
Proof.
  induction l as [|c l IH]; intros d used HA Hnd Hu.
  - exists used. by rewrite app_nil_r.
  - destruct (pf_propose_key_step d used c) as (used1 & Hstep & Hu1);
      [apply HA; left | | done |].
    { apply NoDup_app in Hnd as (_ & Hd & _). intros Hc.
      apply (Hd c Hc). left. }
    destruct (IH (d ++ [c]) used1) as (used' & Hfold & Hu').
    { intros c' Hc'. apply HA. by right. }
    { by rewrite <- app_assoc. }
    { done. }
    exists used'. cbn [fold_left]. rewrite Hstep, Hfold, <- app_assoc.
    split; [done |]. intros p. rewrite Hu', <- app_assoc. done.
Qed.
End PermuteFixKey.

Lemma pf_fill_fold_full l : ∀ d1 d2 lo,
  Dict.keys d2 = l → NoDup (Dict.keys d1 ++ l) →
  Forall is_Some (Dict.values d2) →
  foldM pf_fill l (lo, d1 ++ d2) = Ok (lo, d1 ++ d2).
Proof.
  induction l as [|c l IH]; intros d1 d2 lo Hk Hnd Hall.
  - by destruct d2.
  - destruct d2 as [|[c' v] d2]; [done |]. injection Hk as -> Hk.
    unfold Dict.values in Hall. cbn [fmap list_fmap snd] in Hall.
    apply Forall_cons in Hall as [[p ->] Hall].
    assert (Hc : c ∉ Dict.keys d1).
    { apply NoDup_app in Hnd as (_ & Hd & _). intros Hc.
      apply (Hd c Hc). left. }
    cbn [foldM]. rewrite pf_fill_Some, bind_Ok by done.
    specialize (IH (d1 ++ [(c, Some p)]) d2 lo Hk).
    rewrite <- !app_assoc in IH. apply IH; [|done].
    unfold Dict.keys in *. rewrite fmap_app, <- app_assoc. done.
Qed.

Lemma pf_seal_lookup (m : list (N * N)) (l : list N) :
  Forall (λ c, is_Some (Dict.get m c)) l →
  ∃ k, pf_seal ((λ c, (c, Dict.get m c)) <$> l) = Ok k ∧ Dict.keys k = l ∧
       ∀ c, c ∈ l → Dict.get k c = Dict.get m c.
Proof.
  unfold pf_seal. induction 1 as [|c l [p Hp] _ (k & Hk & Hkeys & Hget)].
  - exists []. do 2 (split; [done |]). intros c Hc. by apply elem_of_nil in Hc.
  - exists ((c, p) :: k). cbn [fmap list_fmap forM fst snd]. rewrite Hp, bind_Ok.
    fold (@fmap list _ _ _ (λ c, (c, Dict.get m c)) l). rewrite Hk, bind_Ok.
    split; [done |]. split; [unfold Dict.keys in *; cbn; by f_equal |].
    intros c' Hc'. cbn [Dict.get]. case_decide as E; [by subst |].
    apply Hget. by apply elem_of_cons in Hc' as [?|?].
Qed.

Lemma permute_fix_key_aux (m : list (N * N)) :
  is_key m →
  ∃ k, permute_fix m = Ok k ∧ Dict.keys k = ALPH ∧
       ∀ c, Dict.get k c = Dict.get m c.
Proof.
  intros Hm. unfold permute_fix.
  destruct (pf_propose_key_fold m Hm ALPH [] ∅) as (used & Hfold & Hu).
  { done. }
  { apply ALPH_NoDup. }
  { intros p. split.
    - intros Hp. by apply not_elem_of_empty in Hp.
    - intros (c' & Hc' & _). by apply elem_of_nil in Hc'. }
  change ((λ c, (c, Dict.get m c)) <$> []) with (@nil (N * option N)) in Hfold.
  rewrite Hfold. rewrite app_nil_l in *.
  assert (Hsome : Forall (λ c, is_Some (Dict.get m c)) ALPH).
  { apply Forall_forall. intros c Hc.
    destruct (is_key_item m c Hm Hc). eauto. }
  assert (Hfull : Forall is_Some (Dict.values ((λ c, (c, Dict.get m c)) <$> ALPH))).
  { unfold Dict.values. rewrite <- list_fmap_compose. by apply Forall_fmap. }
  assert (Hkeys : Dict.keys ((λ c, (c, Dict.get m c)) <$> ALPH) = ALPH).
  { apply keys_tabulate. }
  pose proof (pf_fill_fold_full ALPH [] _ (filter (λ x, x ∉ used) ALPH)
                Hkeys ALPH_NoDup Hfull) as Hfill.
  cbn [app] in Hfill. rewrite Hfill, bind_Ok.
  destruct (pf_seal_lookup m ALPH Hsome) as (k & -> & Hk & Hget).
  exists k. split; [done |]. split; [done |]. intros c.
  destruct (decide (c ∈ ALPH)) as [Hc|Hc]; [by apply Hget |].
  assert (Dict.get k c = None) as -> by (apply get_None; by rewrite Hk).
  symmetry. apply get_None. destruct Hm as [Hmk _]. by rewrite Hmk.
Qed.

(** X5. [permute_fix] changes nothing in a mapping that is already a
    bijection of the alphabet: it returns the same dictionary, listed in
    alphabet order. *)
Theorem permute_fix_key (m : list (N * N)) :
  is_key m →
  ∃ k, permute_fix m = Ok k ∧ Dict.keys k = ALPH ∧
       ∀ c, Dict.get k c = Dict.get m c.
Proof. apply permute_fix_key_aux. Qed.

Lemma permute_fix_key_witness :
  ∃ k, permute_fix identity_key = Ok k ∧ Dict.keys k = ALPH ∧
       ∀ c, Dict.get k c = Dict.get identity_key c.
Proof. apply permute_fix_key, identity_key_is_key. Defined.

(** * Further properties of the seeder *)

Section CounterKeys.
Context {A : Type} `{EqDecision A}.

Lemma set_keys {V : Type} (d : list (A * V)) (k : A) (v : V) :
  Dict.keys (Dict.set d k v)
  = if decide (k ∈ Dict.keys d) then Dict.keys d else Dict.keys d ++ [k].
Proof.
  unfold Dict.keys. induction d as [|[k' v'] d IH]; [done |].
  cbn [Dict.set fmap list_fmap fst]. destruct (decide (k = k')) as [->|Hk].
  - rewrite decide_True by left. done.
  - cbn [fmap list_fmap fst]. rewrite IH. destruct (decide (k ∈ d.*1)).
    + rewrite decide_True by (by right). done.
    + rewrite decide_False; [done |]. by intros [?|?]%elem_of_cons.
Qed.

Lemma Counter_fold_keys (xs : list A) : ∀ d : list (A * nat),
  NoDup (Dict.keys d) →
  let d' := fold_left (λ d x, Dict.set d x (S (default 0%nat (Dict.get d x)))) xs d in
  NoDup (Dict.keys d') ∧ ∀ x, x ∈ Dict.keys d' ↔ x ∈ Dict.keys d ∨ x ∈ xs.
Proof.
  induction xs as [|x xs IH]; intros d Hd; cbn [fold_left].
  - split; [done |]. intros x. rewrite elem_of_nil. tauto.
  - destruct (IH (Dict.set d x (S (default 0%nat (Dict.get d x))))) as [Hnd Hin].
    { rewrite set_keys. case_decide; [done |].
      apply NoDup_app. split; [done |]. split; [|apply NoDup_singleton].
      by intros y Hy ->%list_elem_of_singleton. }
    split; [done |]. intros y. rewrite Hin, set_keys, elem_of_cons.
    case_decide as Hx.
    + split; [tauto |]. intros [?|[->|?]]; tauto.
    + rewrite elem_of_app, list_elem_of_singleton. tauto.
Qed.
End CounterKeys.

(** X6. [Counter(xs)] has one key for each distinct element of [xs], and
    the count under a key is the number of its occurrences in [xs] (0 for
    what does not occur). *)
Theorem Counter_counts {A : Type} `{EqDecision A} (xs : list A) :
  NoDup (Dict.keys (Counter xs)) ∧
  (∀ x, x ∈ Dict.keys (Counter xs) ↔ x ∈ xs) ∧
  (∀ x, counter_get (Counter xs) x = occurrences x xs).
Proof.
  destruct (Counter_fold_keys xs []) as [Hnd Hin]; [constructor |].
  split; [done |]. split; [|apply Counter_get].
  intros x. unfold Counter. rewrite Hin. cbn. rewrite elem_of_nil. tauto.
Qed.

Lemma insert_desc_Permutation {A : Type} (x : A * nat) (l : list (A * nat)) :
  insert_desc x l ≡ₚ x :: l.
Proof.
  induction l as [|y l IH]; [done |]. cbn [insert_desc].
  case_match; [|done]. rewrite IH. apply Permutation_swap.
Qed.

Lemma most_common_Permutation {A : Type} (d : list (A * nat)) :
  most_common d ≡ₚ d.
Proof.
  unfold most_common. induction d as [|x d IH]; [done |].
  cbn [foldr]. by rewrite insert_desc_Permutation, IH.
Qed.

Lemma insert_desc_sorted {A : Type} (x : A * nat) (l : list (A * nat)) :
  StronglySorted (λ a b, b.2 ≤ a.2)%nat l →
  StronglySorted (λ a b, b.2 ≤ a.2)%nat (insert_desc x l).
Proof.
  induction 1 as [|y l Hl IH Hy]; cbn [insert_desc].
  - repeat constructor.
  - destruct (x.2 <? y.2)%nat eqn:E.
    + apply Nat.ltb_lt in E. constructor; [done |].
      rewrite insert_desc_Permutation. constructor; [lia | done].
    + apply Nat.ltb_ge in E. constructor; [by constructor |].
      constructor; [done |]. eapply Forall_impl; [exact Hy |].
      intros z Hz. cbn beta in Hz. lia.
Qed.

Lemma most_common_StronglySorted {A : Type} (d : list (A * nat)) :
  StronglySorted (λ a b, b.2 ≤ a.2)%nat (most_common d).
Proof.
  unfold most_common. induction d as [|x d IH]; [constructor |].
  cbn [foldr]. by apply insert_desc_sorted.
Qed.

Lemma occurrences_0 {A : Type} `{EqDecision A} (w : A) (l : list A) :
  w ∉ l → occurrences w l = 0%nat.
Proof.
  unfold occurrences. induction l as [|x l IH]; [done |].
  intros [Hx Hl]%not_elem_of_cons. rewrite filter_cons_False by congruence.
  by apply IH.
Qed.

(** X7. [most_common] lists the items of a counter, each once, by count
    from the largest to the smallest. *)
Theorem most_common_sorted {A : Type} (d : list (A * nat)) :
  most_common d ≡ₚ d ∧
  StronglySorted (λ a b, b.2 ≤ a.2)%nat (most_common d).
Proof.
  split; [apply most_common_Permutation | apply most_common_StronglySorted].
Qed.

Lemma extend_fold (al : list N) : ∀ co,
  NoDup co →
  let r := fold_left (λ co c, if decide (c ∈ co) then co else co ++ [c]) al co in
  NoDup r ∧ (∀ x, x ∈ r ↔ x ∈ co ∨ x ∈ al) ∧ ∃ extra, r = co ++ extra.
Proof.
  induction al as [|c al IH]; intros co Hco; cbn [fold_left].
  - split; [done |]. split; [|exists []; by rewrite app_nil_r].
    intros x. rewrite elem_of_nil. tauto.
  - case_decide as Hc.
    + destruct (IH co Hco) as (Hnd & Hin & extra & Hex).
      split; [done |]. split; [|by exists extra].
      intros x. rewrite Hin, elem_of_cons. split; [tauto |].
      intros [?|[->|?]]; tauto.
    + destruct (IH (co ++ [c])) as (Hnd & Hin & extra & Hex).
      { apply NoDup_app. split; [done |]. split; [|apply NoDup_singleton].
        by intros y Hy ->%list_elem_of_singleton. }
      split; [done |]. split.
      * intros x. rewrite Hin, elem_of_app, list_elem_of_singleton, elem_of_cons.
        tauto.
      * exists ([c] ++ extra). by rewrite Hex, <- app_assoc.
Qed.

Lemma of_items_fresh {V : Type} (items : list (N * V)) : ∀ acc,
  NoDup (Dict.keys acc ++ items.*1) →
  fold_left (λ d kv, Dict.set d kv.1 kv.2) items acc = acc ++ items.
Proof.
  induction items as [|[k v] items IH]; intros acc Hnd; cbn [fold_left].
  - by rewrite app_nil_r.
  - cbn [fmap list_fmap fst snd] in *. rewrite set_fresh.
    + rewrite IH, <- app_assoc; [done |].
      unfold Dict.keys in *. rewrite fmap_app, <- app_assoc. done.
    + apply NoDup_app in Hnd as (_ & Hd & _). intros Hk.
      apply (Hd k Hk). left.
Qed.

Lemma SPANISH_Permutation : SPANISH_FREQ_ORDER ≡ₚ ALPH.
Proof.
  apply NoDup_Permutation; [by_compute | apply ALPH_NoDup |].
  assert (H1 : Forall (λ x, x ∈ ALPH) SPANISH_FREQ_ORDER) by by_compute.
  assert (H2 : Forall (λ x, x ∈ SPANISH_FREQ_ORDER) ALPH) by by_compute.
  rewrite Forall_forall in H1, H2. intros x. split; auto.
Qed.

Lemma item_mod_small i :
  (i < 27)%nat →
  item_mod SPANISH_FREQ_ORDER i
  = match SPANISH_FREQ_ORDER !! i with Some p => Ok p | None => Raise IndexError end.
Proof.
  intros Hi. unfold item_mod. change (length SPANISH_FREQ_ORDER) with 27%nat.
  cbv iota beta. by rewrite Nat.mod_small.
Qed.

Lemma seed_items (co : list N) :
  length co = 27%nat →
  forM (λ ic : nat * N, p ← item_mod SPANISH_FREQ_ORDER ic.1; Ok (ic.2, p))
       (imap pair co)
  = Ok (zip co SPANISH_FREQ_ORDER).
Proof.
  intros Hlen. apply forM_Ok, Forall2_same_length_lookup_2.
  - rewrite length_imap, length_zip_with, Hlen. done.
  - intros i [j c] [c' p] Hi Hz. rewrite list_lookup_imap in Hi.
    apply lookup_zip_with_Some in Hz as (x & y & [= -> ->] & Hx & Hy).
    rewrite Hx in Hi. injection Hi as <- <-. cbn [fst snd].
    rewrite item_mod_small, Hy; [done |].
    apply lookup_lt_Some in Hx. lia.
Qed.

Lemma cipher_order_Permutation (s : list N) :
  Forall (λ c, c ∈ ALPH) s →
  extend_order ((most_common (Counter s)).*1) ≡ₚ ALPH ∧
  ∃ extra, extend_order ((most_common (Counter s)).*1)
           = (most_common (Counter s)).*1 ++ extra.
Proof.
  intros Hs. destruct (Counter_fold_keys s []) as [Hnd Hin]; [constructor |].
  fold (Counter s) in Hnd, Hin.
  assert (Hperm : (most_common (Counter s)).*1 ≡ₚ Dict.keys (Counter s)).
  { unfold Dict.keys. by rewrite most_common_Permutation. }
  destruct (extend_fold ALPH ((most_common (Counter s)).*1))
    as (Hnd' & Hin' & Hex); [by rewrite Hperm |].
  split; [|done]. apply NoDup_Permutation; [done | apply ALPH_NoDup |].
  intros x. unfold extend_order. rewrite Hin', Hperm, Hin.
  rewrite Forall_forall in Hs. cbn. rewrite elem_of_nil. split; [|tauto].
  intros [[[]|?]|?]; auto.
Qed.

Lemma seed_key_lookup (s : list N) (force_e : bool) :
  Forall (λ c, c ∈ ALPH) s →
  ∃ k, initial_key_from_freq s force_e = Ok k ∧
    ∀ i c, extend_order ((most_common (Counter s)).*1) !! i = Some c →
           Dict.get k c = SPANISH_FREQ_ORDER !! i.
Proof.
  intros Hs. destruct (cipher_order_Permutation s Hs) as [Hperm _].
  unfold initial_key_from_freq.
  set (co := extend_order ((most_common (Counter s)).*1)) in *.
  assert (Hlen : length co = 27%nat) by by rewrite Hperm.
  assert (Hco : NoDup co) by (rewrite Hperm; apply ALPH_NoDup).
  rewrite target_order_Ok, bind_Ok, seed_items, bind_Ok by done.
  assert (Hk1 : (zip co SPANISH_FREQ_ORDER).*1 = co).
  { apply fst_zip. rewrite Hlen. done. }
  assert (Hk2 : (zip co SPANISH_FREQ_ORDER).*2 = SPANISH_FREQ_ORDER).
  { apply snd_zip. rewrite Hlen. done. }
  cbv zeta. unfold Dict.of_items. rewrite of_items_fresh by by rewrite Hk1.
  cbn [app].
  destruct (permute_fix_key_aux (zip co SPANISH_FREQ_ORDER)) as (k & -> & _ & Hget).
  { split; unfold Dict.keys, Dict.values.
    - by rewrite Hk1. - rewrite Hk2. apply SPANISH_Permutation. }
  exists k. split; [done |]. intros i c Hi. rewrite Hget.
  destruct (lookup_lt_is_Some_2 SPANISH_FREQ_ORDER i) as [p Hp].
  { apply lookup_lt_Some in Hi. rewrite Hlen in Hi. done. }
  rewrite Hp. apply elem_get_Some; [unfold Dict.keys; by rewrite Hk1 |].
  apply list_elem_of_lookup. exists i.
  apply lookup_zip_with_Some. by exists c, p.
Qed.

(** X8. On a string of letters the seed key follows the two frequency
    orders: the cipher letters by decreasing count, then the letters that
    do not occur, are a permutation of the alphabet, and the letter at
    position [i] of that order is mapped to the letter at position [i] of
    the Spanish frequency order. *)
Theorem seed_key_frequency_order (s : list N) (force_e : bool) :
  Forall (λ c, c ∈ ALPH) s →
  extend_order ((most_common (Counter s)).*1) ≡ₚ ALPH ∧
  ∃ k, initial_key_from_freq s force_e = Ok k ∧
    ∀ i c, extend_order ((most_common (Counter s)).*1) !! i = Some c →
           Dict.get k c = SPANISH_FREQ_ORDER !! i.
Proof.
  intros Hs. split; [by apply cipher_order_Permutation |].
  by apply seed_key_lookup.
Qed.

Lemma seed_key_frequency_order_witness :
  extend_order ((most_common (Counter (str "abb"))).*1) ≡ₚ ALPH ∧
  ∃ k, initial_key_from_freq (str "abb") true = Ok k ∧
    ∀ i c, extend_order ((most_common (Counter (str "abb"))).*1) !! i = Some c →
           Dict.get k c = SPANISH_FREQ_ORDER !! i.
Proof. apply seed_key_frequency_order. by_compute. Defined.

(** X9. The seed key decodes a most frequent letter of the ciphertext as
    ['e']: for a string of letters that is not empty, some letter of the
    string that occurs at least as often as every other is mapped to
    ['e']. *)
Theorem seed_key_most_frequent_e (s : list N) (force_e : bool) :
  Forall (λ c, c ∈ ALPH) s → s ≠ [] →
  ∃ k c, initial_key_from_freq s force_e = Ok k ∧
    c ∈ s ∧ (∀ c', occurrences c' s ≤ occurrences c s)%nat ∧
    Dict.get k c = Some ch_e.
Proof.
  intros Hs Hne. destruct (seed_key_lookup s force_e Hs) as (k & Hk & Hget).
  destruct (cipher_order_Permutation s Hs) as [_ [extra Hex]].
  destruct (Counter_fold_keys s []) as [Hnd Hin]; [constructor |].
  fold (Counter s) in Hnd, Hin.
  pose proof (most_common_Permutation (Counter s)) as Hperm.
  pose proof (most_common_StronglySorted (Counter s)) as Hsorted.
  assert (Hcount : ∀ c n, (c, n) ∈ most_common (Counter s) → n = occurrences c s).
  { intros c n Hc. rewrite Hperm in Hc. apply elem_get_Some in Hc; [|done].
    rewrite <- Counter_get. unfold counter_get. by rewrite Hc. }
  destruct (most_common (Counter s)) as [|[c n] mc] eqn:Hmc.
  { apply Permutation_nil_l in Hperm.
    destruct s as [|x s]; [exfalso; by apply Hne |].
    assert (x ∈ Dict.keys (Counter (x :: s))) as Hx by (apply Hin; right; left).
    rewrite <- Hperm in Hx. apply elem_of_nil in Hx. destruct Hx. }
  exists k, c. split; [exact Hk |].
  assert (Hc : (c, n) ∈ (c, n) :: mc) by left.
  split; [|split].
  - assert (c ∈ Dict.keys (Counter s)) as Hck.
    { unfold Dict.keys. rewrite <- Hperm. apply list_elem_of_fmap.
      by exists (c, n). }
    apply Hin in Hck as [Hck|Hck]; [by apply elem_of_nil in Hck | done].
  - intros c'. rewrite <- (Hcount c n Hc).
    destruct (decide (c' ∈ s)) as [Hc'|Hc'].
    + assert (c' ∈ Dict.keys (Counter s)) as Hck by (apply Hin; by right).
      unfold Dict.keys in Hck. rewrite <- Hperm in Hck.
      apply list_elem_of_fmap in Hck as ([c'' n'] & -> & Hin').
      cbn [fst]. rewrite <- (Hcount _ _ Hin').
      apply elem_of_cons in Hin' as [[= -> ->]|Hin']; [lia |].
      apply StronglySorted_inv in Hsorted as [_ Hall].
      rewrite Forall_forall in Hall. apply (Hall _ Hin').
    + rewrite occurrences_0 by done. lia.
  - rewrite (Hget 0%nat c); [done |]. rewrite Hex. done.
Qed.

Lemma seed_key_most_frequent_e_witness :
  ∃ k c, initial_key_from_freq (str "abb") true = Ok k ∧
    c ∈ str "abb" ∧ (∀ c', occurrences c' (str "abb") ≤ occurrences c (str "abb"))%nat ∧
    Dict.get k c = Some ch_e.
Proof. apply seed_key_most_frequent_e; [by_compute | done]. Defined.

(** * Further properties of the utilities *)

Lemma split_from_tokens (text : list N) : ∀ cur,
  Forall (λ c, py_isspace c = false) cur →
  Forall (λ tok, tok ≠ [] ∧ Forall (λ c, py_isspace c = false) tok)
         (split_from cur text) ∧
  concat (split_from cur text)
  = reverse cur ++ filter (λ c, py_isspace c = false) text.
Proof.
  induction text as [|c text IH]; intros cur Hcur; cbn [split_from].
  - destruct cur as [|x cur].
    + split; [constructor | done].
    + split.
      * constructor; [|constructor]. split.
        -- intros E. apply (f_equal length) in E.
           rewrite length_reverse in E. done.
        -- by apply Forall_reverse.
      * cbn [concat]. rewrite filter_nil. done.
  - destruct (py_isspace c) eqn:Hc.
    + rewrite filter_cons_False by congruence.
      destruct (IH [] (Forall_nil_2 _)) as [Hall Hcat].
      destruct cur as [|x cur]; [done |]. split.
      * constructor; [|done]. split.
        -- intros E. apply (f_equal length) in E.
           rewrite length_reverse in E. done.
        -- by apply Forall_reverse.
      * cbn [concat]. by rewrite Hcat.
    + rewrite filter_cons_True by done.
      destruct (IH (c :: cur)) as [Hall Hcat]; [by constructor |].
      split; [done |]. rewrite Hcat, reverse_cons, <- app_assoc. done.
Qed.

(** X10. [text.split()] returns the runs of the text between white space:
    no token is empty, no token holds a white space character, and the
    tokens put end to end are the text without its white space (so a text
    of white space only has no tokens). *)
Theorem split_tokens (text : list N) :
  Forall (λ tok, tok ≠ [] ∧ Forall (λ c, py_isspace c = false) tok)
         (split text) ∧
  concat (split text) = filter (λ c, py_isspace c = false) text.
Proof. apply (split_from_tokens text []). constructor. Qed.

Lemma occurrences_filter {A : Type} `{EqDecision A} (P : A → Prop)
    `{∀ x, Decision (P x)} (w : A) (l : list A) :
  occurrences w (filter P l) = if decide (P w) then occurrences w l else 0%nat.
Proof.
  unfold occurrences. induction l as [|x l IH].
  - by case_decide.
  - destruct (decide (P x)) as [Hx|Hx].
    + rewrite (filter_cons_True P) by done.
      destruct (decide (x = w)) as [->|Hne].
      * rewrite !(filter_cons_True (λ y, y = w)) by done.
        rewrite decide_True in * by done. cbn [length]. by rewrite IH.
      * rewrite !(filter_cons_False (λ y, y = w)) by done. done.
    + rewrite (filter_cons_False P) by done. rewrite IH.
      case_decide as Hw; [|done].
      rewrite (filter_cons_False (λ y, y = w)); [done |]. by intros ->.
Qed.

(** X11. [count_letters] counts the letters of the alphabet and nothing
    else: the count of a letter is the number of its occurrences in the
    text, and every other character has count 0. *)
Theorem count_letters_counts (text : list N) (c : N) :
  counter_get (count_letters text) c
  = if decide (c ∈ ALPH) then occurrences c text else 0%nat.
Proof.
  unfold count_letters. rewrite Counter_get.
  pose proof (occurrences_filter (λ c, c ∈ ALPH) c text) as H.
  cbv beta in H. rewrite H. by repeat case_decide.
Qed.

(** * Further properties of the search *)

Lemma get_swap_images (k : list (N * N)) (a b ch : N) :
  Dict.get (swap_images k a b) ch = swap_value a b <$> Dict.get k ch.
Proof.
  unfold swap_images. induction k as [|[c v] k IH]; [done |].
  cbn [fmap list_fmap prod_map fst snd id Dict.get].
  case_decide; [done |]. apply IH.
Qed.

(** X12. [random_swap_key] raises [ValueError] on a mapping with fewer
    than two distinct images (the empty dictionary, a constant one):
    [random.sample] cannot draw two of them. *)
Theorem random_swap_key_ValueError (I : interp) :
  interp_ok I →
  ∀ m w, (length (remove_dups (Dict.values m)) < 2)%nat →
         random_swap_key I m w = Raise ValueError.
Proof.
  intros HI m w Hlen. unfold random_swap_key, mbind, M_bind, random_sample2.
  rewrite decide_True; [done |].
  by rewrite (Permutation_length (set_order_spec I HI (Dict.values m))).
Qed.

Lemma random_swap_key_ValueError_witness :
  random_swap_key (tape_forward (λ _, [])) [(97%N, 98%N); (99%N, 98%N)]
    (World (tape_forward (λ _, [])) [] []) = Raise ValueError.
Proof.
  apply random_swap_key_ValueError; [apply tape_forward_ok |].
  change (1 < 2)%nat. lia.
Defined.

(** X13. A neighbour proposed by [random_swap_key] from a key that is a
    bijection is never the key itself: two distinct cipher letters have
    exchanged their images and every other letter has kept its image. *)
Theorem random_swap_key_neighbour (I : interp) :
  interp_ok I →
  ∀ k w k' w', is_key k → random_swap_key I k w = Ok (k', w') →
    k' ≠ k ∧
    ∃ c1 c2, c1 ≠ c2 ∧
      Dict.get k' c1 = Dict.get k c2 ∧ Dict.get k' c2 = Dict.get k c1 ∧
      ∀ c, c ≠ c1 → c ≠ c2 → Dict.get k' c = Dict.get k c.
Proof.
  intros HI k w k' w' Hk Hrun.
  destruct (random_swap_key_Ok I HI k w Hk) as (a & b & g & Hs & Ha & Hb & Hab & _).
  rewrite Hs in Hrun. injection Hrun as <- <-.
  assert (Hpre : ∀ p, p ∈ ALPH → ∃ c, Dict.get k c = Some p).
  { intros p Hp. destruct Hk as [Hkk Hkv]. rewrite <- Hkv in Hp.
    apply list_elem_of_fmap in Hp as ([c p'] & -> & Hin). exists c.
    apply elem_get_Some; [|done]. rewrite Hkk. apply ALPH_NoDup. }
  destruct (Hpre a Ha) as [c1 Hc1]. destruct (Hpre b Hb) as [c2 Hc2].
  assert (H1 : Dict.get (swap_images k a b) c1 = Some b).
  { rewrite get_swap_images, Hc1. cbn. unfold swap_value.
    by rewrite decide_True. }
  assert (H2 : Dict.get (swap_images k a b) c2 = Some a).
  { rewrite get_swap_images, Hc2. cbn. unfold swap_value.
    rewrite decide_False, decide_True by done. done. }
  split.
  - intros E. rewrite E in H1. congruence.
  - exists c1, c2. split; [congruence |]. split; [congruence |].
    split; [congruence |]. intros c Hn1 Hn2. rewrite get_swap_images.
    destruct (Dict.get k c) as [v|] eqn:Hc; [|done]. cbn. f_equal.
    unfold swap_value. rewrite !decide_False; [done | |].
    + intros ->. apply Hn2.
      eapply key_get_inj; [by apply is_key_NoDup_values | done..].
    + intros ->. apply Hn1.
      eapply key_get_inj; [by apply is_key_NoDup_values | done..].
Qed.

Lemma random_swap_key_neighbour_witness :
  ∃ k' w',
    random_swap_key (tape_forward (λ _, [])) identity_key
      (World (tape_forward (λ _, [])) [] []) = Ok (k', w') ∧
    k' ≠ identity_key ∧
    ∃ c1 c2, c1 ≠ c2 ∧
      Dict.get k' c1 = Dict.get identity_key c2 ∧
      Dict.get k' c2 = Dict.get identity_key c1 ∧
      ∀ c, c ≠ c1 → c ≠ c2 → Dict.get k' c = Dict.get identity_key c.
Proof.
  destruct (random_swap_key_Ok _ (tape_forward_ok (λ _, [])) identity_key
              (World (tape_forward (λ _, [])) [] []) identity_key_is_key)
    as (a & b & g & E & _).
  eexists _, _. split; [exact E |].
  exact (random_swap_key_neighbour _ (tape_forward_ok _) _ _ _ _
           identity_key_is_key E).
Defined.

Lemma range_empty (lo hi : Z) : (hi ≤ lo)%Z → range lo hi = [].
Proof.
  intros H. unfold range. by replace (Z.to_nat (hi - lo)) with 0%nat by lia.
Qed.

(** X15. Without iterations nothing is ever accepted: for [iters <= 0]
    [decipher] returns the seed key with its decode and its score,
    whatever the number of restarts. *)
Theorem decipher_no_iterations (I : interp) :
  interp_ok I →
  ∀ cipher_norm restarts iters seed force_e g, (iters ≤ 0)%Z →
  ∃ base_key seed_plain seed_score w',
    initial_key_from_freq (only_letters cipher_norm) force_e = Ok base_key ∧
    apply_mapping cipher_norm base_key = Ok seed_plain ∧
    score_text seed_plain = Ok seed_score ∧
    decipher I cipher_norm restarts iters seed force_e (World I g [])
      = Ok ((seed_plain, base_key, seed_score), w').
Proof.
  intros HI cipher_norm restarts iters seed force_e g Hit.
  destruct (initial_key_from_freq_is_key (only_letters cipher_norm) force_e)
    as (base_key & Hbase & _ & Hk).
  destruct (apply_mapping_total cipher_norm base_key Hk) as [seed_plain Hplain].
  destruct (score_text_total seed_plain) as [seed_score Hscore].
  exists base_key, seed_plain, seed_score.
  set (sd := Candidate base_key seed_plain seed_score).
  assert (Hrun : runs (decipher I cipher_norm restarts iters seed force_e)
                   (World I g [])
                   (λ res _, res = (seed_plain, base_key, seed_score))).
  { unfold decipher. apply runs_bind.
    apply (runs_mono _ _ (λ _ _, True)).
    { destruct seed; [by eexists _, _ | by apply runs_ret]. }
    intros _ w0 _.
    apply runs_bind. eapply runs_lift; [exact Hbase |].
    apply runs_bind. eapply runs_lift; [exact Hplain |].
    apply runs_bind. eapply runs_lift; [exact Hscore |].
    apply runs_bind, runs_record. apply runs_bind.
    eapply runs_mono.
    { apply (runs_foldM (restart I cipher_norm iters base_key) _
               (λ bst _, bst = sd)); [|done].
      intros bst r w _ ->. unfold restart. apply runs_bind.
      apply (runs_mono _ _ (λ k' _, is_key k')).
      { case_decide; [by apply runs_ret |].
        eapply runs_mono; [by apply shake_key_runs |]. by intros ?? [? _]. }
      intros current_key w1 Hck.
      destruct (apply_mapping_total cipher_norm current_key Hck) as [plain Hp].
      destruct (score_text_total plain) as [score Hs].
      apply runs_bind. eapply runs_lift; [exact Hp |].
      apply runs_bind. eapply runs_lift; [exact Hs |].
      apply runs_bind, runs_record. apply runs_bind.
      rewrite range_empty by lia. apply runs_ret. by apply runs_ret. }
    intros bst w' ->. by apply runs_ret. }
  destruct Hrun as (res & w' & Hrun & ->). by exists w'.
Qed.

Lemma decipher_no_iterations_witness :
  ∃ base_key seed_plain seed_score w',
    initial_key_from_freq (only_letters (str "ab")) true = Ok base_key ∧
    apply_mapping (str "ab") base_key = Ok seed_plain ∧
    score_text seed_plain = Ok seed_score ∧
    decipher (tape_forward (λ _, [])) (str "ab") 3 0 None true
      (World (tape_forward (λ _, [])) [] [])
      = Ok ((seed_plain, base_key, seed_score), w').
Proof.
  apply (decipher_no_iterations _ (tape_forward_ok _)). lia.
Defined.

(** X16. The plaintext that [decipher] returns has the shape of the
    ciphertext: the same length, every character that is not a letter in
    its place, a letter wherever the ciphertext has a letter; a ciphertext
    without letters is returned as it is. *)
Theorem decipher_keeps_shape (I : interp) :
  interp_ok I →
  ∀ cipher_norm restarts iters seed force_e g,
  ∃ plain key score w',
    decipher I cipher_norm restarts iters seed force_e (World I g [])
      = Ok ((plain, key, score), w') ∧
    length plain = length cipher_norm ∧
    (∀ i ch, cipher_norm !! i = Some ch →
       if decide (ch ∈ ALPH)
       then ∃ p, p ∈ ALPH ∧ plain !! i = Some p
       else plain !! i = Some ch) ∧
    (only_letters cipher_norm = [] → plain = cipher_norm).
Proof.
  intros HI cipher_norm restarts iters seed force_e g.
  destruct (decipher_runs I HI cipher_norm restarts iters seed force_e g)
    as (_ & _ & _ & _ & _ & _ & res & w' & Hrun & bst & -> & (Hk & Hp & _) & _).
  exists (c_plain bst), (c_key bst), (c_score bst), w'. split; [done |].
  destruct (apply_mapping_positions_aux cipher_norm (c_key bst) Hk)
    as (out & Hout & Hlen & Hpos).
  rewrite Hp in Hout. injection Hout as <-.
  split; [done |]. split.
  - intros i ch Hi. destruct (Hpos i ch Hi) as [Hno Hyes].
    case_decide as Hch; [|by apply Hno].
    destruct (Hyes Hch) as (p & Hg & Hpl). exists p.
    split; [by eapply is_key_image | done].
  - intros Hno. rewrite apply_mapping_no_letters in Hp by done. congruence.
Qed.

Lemma decipher_keeps_shape_witness :
  ∃ plain key score w',
    decipher (tape_forward (λ _, [])) (str "a b") 1 1 None true
      (World (tape_forward (λ _, [])) [] [])
      = Ok ((plain, key, score), w') ∧
    length plain = length (str "a b") ∧
    (∀ i ch, str "a b" !! i = Some ch →
       if decide (ch ∈ ALPH)
       then ∃ p, p ∈ ALPH ∧ plain !! i = Some p
       else plain !! i = Some ch) ∧
    (only_letters (str "a b") = [] → plain = str "a b").
Proof. apply (decipher_keeps_shape _ (tape_forward_ok _)). Defined.

(** * Further properties of the normalisation *)

Lemma latin1_cases (P : N → Prop) `{∀ c, Decision (P c)} :
  Forall P (N.of_nat <$> seq 0 256) → ∀ c, (c < 256)%N → P c.
Proof.
  intros HP c Hc. rewrite Forall_forall in HP. apply HP.
  apply list_elem_of_fmap. exists (N.to_nat c). split; [lia |].
  apply elem_of_seq. lia.
Qed.

Lemma normal_char_latin1 c :
  (c < 256)%N →
  (normal_char c < 256)%N ∧ normal_char (normal_char c) = normal_char c.
Proof.
  revert c.
  apply (latin1_cases
           (λ c, (normal_char c < 256)%N
                 ∧ normal_char (normal_char c) = normal_char c)).
  by_compute.
Qed.

Lemma forallb_latin1 (t : list N) :
  Forall (λ c, c < 256)%N t → forallb (λ c, c <? 256)%N t = true.
Proof.
  intros Ht. apply forallb_forall. intros c Hc%list_elem_of_In.
  rewrite Forall_forall in Ht. apply N.ltb_lt. auto.
Qed.

Lemma normalize_latin1 (unicode_lower : list N → list N) (t : list N) :
  Forall (λ c, c < 256)%N t → normalize unicode_lower t = normal_char <$> t.
Proof.
  intros Ht. unfold normalize, py_lower, translate.
  rewrite forallb_latin1.
  - by rewrite <- list_fmap_compose.
  - apply Forall_fmap. eapply Forall_impl; [exact Ht |].
    intros c Hc. cbn beta in *.
    assert (Forall (λ kv, kv.2 < 256)%N accents) as Hacc by by_compute.
    rewrite Forall_forall in Hacc.
    unfold compose. destruct (Dict.get accents c) as [v|] eqn:E; [|done].
    apply (Hacc (c, v)). by apply get_Some_elem.
Qed.

(** X17. On a text of Latin-1 characters [normalize] keeps the length and
    the range, and normalising twice is normalising once. *)
Theorem normalize_idempotent (unicode_lower : list N → list N) (t : list N) :
  Forall (λ c, c < 256)%N t →
  length (normalize unicode_lower t) = length t ∧
  Forall (λ c, c < 256)%N (normalize unicode_lower t) ∧
  normalize unicode_lower (normalize unicode_lower t) = normalize unicode_lower t.
Proof.
  intros Ht. rewrite normalize_latin1 by done.
  assert (Hr : Forall (λ c, c < 256)%N (normal_char <$> t)).
  { apply Forall_fmap. eapply Forall_impl; [exact Ht |].
    intros c Hc. by apply normal_char_latin1. }
  split; [by rewrite length_fmap |]. split; [done |].
  rewrite normalize_latin1 by done. rewrite <- list_fmap_compose.
  apply Forall_fmap_ext. eapply Forall_impl; [exact Ht |].
  intros c Hc. by apply normal_char_latin1.
Qed.

Lemma normalize_idempotent_witness :
  length (normalize id [193; 241; 32; 90]%N) = length [193; 241; 32; 90]%N ∧
  Forall (λ c, c < 256)%N (normalize id [193; 241; 32; 90]%N) ∧
  normalize id (normalize id [193; 241; 32; 90]%N)
  = normalize id [193; 241; 32; 90]%N.
Proof. apply normalize_idempotent. by_compute. Defined.

(** X18. [normalize] leaves alone what is already normal: a text made of
    letters of the alphabet (the n with tilde among them) and of ASCII
    characters other than capitals is returned as it is. *)
Theorem normalize_fixes_normal (unicode_lower : list N → list N) (t : list N) :
  Forall (λ c, c ∈ ALPH ∨ (c < 128 ∧ (c < 65 ∨ 90 < c)))%N t →
  normalize unicode_lower t = t.
Proof.
  intros Ht.
  assert (Hfix : ∀ c, (c < 256)%N →
            (c ∈ ALPH ∨ (c < 128 ∧ (c < 65 ∨ 90 < c)))%N → normal_char c = c).
  { apply (latin1_cases
             (λ c, (c ∈ ALPH ∨ (c < 128 ∧ (c < 65 ∨ 90 < c)))%N → normal_char c = c)).
    by_compute. }
  assert (Hl : Forall (λ c, c < 256)%N t).
  { eapply Forall_impl; [exact Ht |]. intros c [Hc|Hc]; [|lia].
    assert (Forall (λ c, c < 256)%N ALPH) as HA by by_compute.
    rewrite Forall_forall in HA. auto. }
  rewrite normalize_latin1 by done.
  rewrite <- (list_fmap_id t) at 2. apply Forall_fmap_ext.
  rewrite Forall_forall in Ht, Hl. apply Forall_forall. intros c Hc.
  apply Hfix; auto.
Qed.

Lemma normalize_fixes_normal_witness :
  normalize id (str "se" ++ [241%N] ++ str "or, 2 ") = str "se" ++ [241%N] ++ str "or, 2 ".
Proof. apply normalize_fixes_normal. by_compute. Defined.

(** X19. [normalize] sends every letter of Spanish text (a capital or
    small letter, the n with tilde, an accented vowel) to a letter of the
    alphabet, so that [apply_mapping] and [only_letters] see it. *)
Theorem normalize_spanish_letters (unicode_lower : list N → list N) (t : list N) :
  Forall (λ c, c ∈ SPANISH_LETTERS) t →
  Forall (λ c, c ∈ ALPH) (normalize unicode_lower t).
Proof.
  intros Ht.
  assert (Hs : Forall (λ c, c < 256 ∧ normal_char c ∈ ALPH)%N SPANISH_LETTERS)
    by by_compute.
  rewrite Forall_forall in Hs.
  rewrite normalize_latin1.
  - apply Forall_fmap. eapply Forall_impl; [exact Ht |].
    intros c Hc. by apply Hs.
  - eapply Forall_impl; [exact Ht |]. intros c Hc. by apply Hs.
Qed.

Lemma normalize_spanish_letters_witness :
  Forall (λ c, c ∈ ALPH) (normalize id [193; 209; 97; 90]%N).
Proof. apply normalize_spanish_letters. by_compute. Defined.

(** * The printed key *)

Lemma holders_miss (k : list (N * N)) (c : N) :
  c ∉ Dict.values k → holders k c = [].
Proof.
  unfold holders, Dict.values. induction k as [|[h v] k IH]; [done |].
  cbn [fmap list_fmap snd]. intros [Hv Hk]%not_elem_of_cons.
  rewrite filter_cons_False by (cbn; congruence). by apply IH.
Qed.

Lemma holders_singleton (k : list (N * N)) (h c : N) :
  NoDup (Dict.values k) → (h, c) ∈ k → holders k c = [h].
Proof.
  unfold Dict.values. induction k as [|[h' v] k IH]; intros Hnd Hin.
  - by apply elem_of_nil in Hin.
  - cbn [fmap list_fmap snd] in Hnd. apply NoDup_cons in Hnd as [Hv Hnd].
    apply elem_of_cons in Hin as [[= <- <-]|Hin]; unfold holders.
    + rewrite filter_cons_True by done. cbn [fmap list_fmap fst]. f_equal.
      by apply holders_miss.
    + rewrite filter_cons_False.
      * by apply IH.
      * cbn. intros ->. apply Hv. apply list_elem_of_fmap. by exists (h, c).
Qed.

Lemma merge_sort_singleton (h : N) : merge_sort N.le [h] = [h].
Proof.
  apply Permutation_singleton_r, merge_sort_Permutation.
Qed.

Lemma key_listing_Forall2 (k : list (N * N)) (l : list N) :
  is_key k → (∀ c, c ∈ l → c ∈ ALPH) →
  Forall2 (λ c hc, hc.2 = c ∧ Dict.get k hc.1 = Some c) l
          (c ← l; h ← merge_sort N.le (holders k c); [(h, c)]).
Proof.
  intros Hk. induction l as [|c l IH]; intros Hl; [constructor |].
  assert (Hc : c ∈ Dict.values k).
  { destruct Hk as [_ Hv]. rewrite Hv. apply Hl. left. }
  apply list_elem_of_fmap in Hc as ([h c'] & -> & Hin).
  cbn [snd] in *. rewrite bind_cons.
  rewrite (holders_singleton k h c') by (by apply is_key_NoDup_values || done).
  rewrite merge_sort_singleton, bind_singleton. cbn [app].
  constructor.
  - split; [done |]. apply elem_get_Some; [by apply is_key_NoDup_keys | done].
  - apply IH. intros c Hc. apply Hl. by right.
Qed.

(** X20. For a key that is a bijection [main] prints one line for every
    letter of the alphabet, in alphabet order of the plain letters; the
    line for [c] names the cipher letter that the key decodes to [c], and
    every cipher letter is named once. *)
Theorem key_listing_inverse (k : list (N * N)) :
  is_key k →
  (key_listing k).*2 = ALPH ∧
  (key_listing k).*1 ≡ₚ ALPH ∧
  ∀ h c, (h, c) ∈ key_listing k ↔ Dict.get k h = Some c.
Proof.
  intros Hk. pose proof (key_listing_Forall2 k ALPH Hk (λ c H, H)) as HF.
  fold (key_listing k) in HF.
  assert (H2 : (key_listing k).*2 = ALPH).
  { apply list_eq_Forall2, Forall2_fmap_l, Forall2_flip.
    eapply Forall2_impl; [exact HF |]. by intros c hc [? _]. }
  assert (Hiff : ∀ h c, (h, c) ∈ key_listing k ↔ Dict.get k h = Some c).
  { intros h c. split.
    - intros Hin. apply list_elem_of_lookup in Hin as [i Hi].
      destruct (Forall2_lookup_r _ _ _ _ _ HF Hi) as (c0 & _ & <- & Hg). done.
    - intros Hg. assert (c ∈ ALPH) as Hc by by eapply is_key_image.
      apply list_elem_of_lookup in Hc as [i Hi].
      destruct (Forall2_lookup_l _ _ _ _ _ HF Hi) as ([h' c'] & Hi' & Hc' & Hg').
      cbn in Hc', Hg'. subst c'.
      assert (h' = h) as <-.
      { eapply key_get_inj; [by apply is_key_NoDup_values | done..]. }
      by eapply list_elem_of_lookup_2. }
  split; [done |]. split; [|done].
  symmetry. apply submseteq_length_Permutation.
  - apply NoDup_submseteq; [apply ALPH_NoDup |]. intros h Hh.
    destruct (is_key_item k h Hk Hh) as [c Hc]. apply Hiff in Hc.
    apply list_elem_of_fmap. by exists (h, c).
  - rewrite <- H2. by rewrite !length_fmap.
Qed.

Lemma key_listing_inverse_witness :
  (key_listing identity_key).*2 = ALPH ∧
  (key_listing identity_key).*1 ≡ₚ ALPH ∧
  ∀ h c, (h, c) ∈ key_listing identity_key ↔ Dict.get identity_key h = Some c.
Proof. apply key_listing_inverse, identity_key_is_key. Defined.

(** * Further properties of the schedule and of the score *)




